(** * TimelineTransaction: rollback semantics for timeline operations

    A verification development for [src/transaction.ts] of the 6D chess
    repository.  The transaction captures the state of timelines before a
    multi-timeline move, records the ids of timelines created during the move,
    and on rollback deletes the new timelines and restores the captured ones.

    The file has three parts:
    - the data model of [./types] and the clone helpers, as pure functions;
    - the transaction itself, as a state-and-exception monad over a world
      made of the transaction object, the timelines registry and a trace of
      the externally visible effects;
    - an object-heap model of the clone helpers, where allocation is explicit,
      used to state that a clone shares no object with its input. *)

From stdpp Require Import gmap strings list fin_maps.

Open Scope Z_scope.

(** ** Data model *)

(** Modelled from the spec: the declarations of [./types] ([Piece], [Board],
    [Move], [AnySnapshot], [TimelineData], [ChessInstance]) are imported by
    [transaction.ts] but are not among the sources.  The types below follow the
    data model of the specification; the field names are the ones
    [transaction.ts] reads and writes. *)
Inductive PieceType := Pawn | Knight | Bishop | Rook | Queen | King.

Inductive Color := White | Black.

Record Piece := mkPiece { type : PieceType; color : Color }.

(** A cell holds a piece or [null]; a board is an array of rows.  The type does
    not fix the dimensions, as an array of arrays does not. *)
Abbreviation Row := (list (option Piece)).
Abbreviation Board := (list Row).

(** A square is given by its name. *)
Abbreviation Square := string.

Record Move := mkMove {
  from : Square;
  to : Square;
  piece : Piece;
  captured : option Piece;
  san : string;
  isWhite : bool;
  promotion : option PieceType
}.

(** [AnySnapshot]: the old format is a bare board array, the new format an
    object [{ fen, board }]. *)
Inductive AnySnapshot :=
  | BareBoard (board : Board)
  | FenBoard (snap_fen : string) (snap_board : Board).

(** ** Clone helpers (private methods of the class) *)

Definition deepCloneMoveHistory (moves : list Move) : list Move :=
  map (fun m => {| from := from m; to := to m; piece := piece m;
                   captured := captured m; san := san m;
                   isWhite := isWhite m; promotion := promotion m |}) moves.

(** [board[r]?.[c]]: [undefined] when the row or the column is missing. *)
Definition board_at (board : Board) (r c : nat) : option (option Piece) :=
  row ← board !! r; row !! c.

(** [p ? { type: p.type, color: p.color } : null] *)
Definition clone_cell (p : option (option Piece)) : option Piece :=
  match p with
  | Some (Some p) => Some {| type := type p; color := color p |}
  | Some None | None => None
  end.

(** The two loops [for (let r = 0; r < 8; r++)], [for (let c = 0; c < 8; c++)]. *)
Definition deepCloneBoard (board : Board) : Board :=
  map (fun r => map (fun c => clone_cell (board_at board r c)) (seq 0 8)) (seq 0 8).

Definition deepCloneSnapshot (snapshot : AnySnapshot) : AnySnapshot :=
  match snapshot with
  | BareBoard b => BareBoard (deepCloneBoard b)
  | FenBoard f b => FenBoard f (deepCloneBoard b)
  end.

Definition deepCloneSnapshots (snapshots : list AnySnapshot) : list AnySnapshot :=
  map deepCloneSnapshot snapshots.

(** A board as the data model describes it: eight rows of eight cells. *)
Definition board_8x8 (b : Board) : Prop :=
  length b = 8%nat ∧ Forall (fun row => length row = 8%nat) b.

Definition snapshot_board (s : AnySnapshot) : Board :=
  match s with BareBoard b => b | FenBoard _ b => b end.

Definition snapshot_8x8 (s : AnySnapshot) : Prop := board_8x8 (snapshot_board s).

Definition empty_row : Row := replicate 8 None.
Definition empty_board : Board := replicate 8 empty_row.

(** ** The chess engine behind a timeline *)

(** [ChessInstance] is the interface of the engine object each timeline owns.
    The transaction uses two of its methods: [fen()], which serialises the
    position, and [load(fen)], which replaces the position in place and answers
    whether the string was accepted. *)
Class ChessInstance (C : Type) := {
  fen : C → string;
  load : C → string → C * bool
}.

(** A small engine used to run the model on concrete inputs: its whole state is
    the positional string, and [load] refuses the empty string. *)
Definition StringChess := string.

#[export] Instance StringChess_instance : ChessInstance StringChess := {|
  fen := fun c => c;
  load := fun c s => if decide (s = EmptyString) then (c, false) else (s, true)
|}.

(** ** JavaScript [Map] with numeric keys *)

(** Entries are kept in insertion order, which is the order [for ... of]
    visits them. *)
Abbreviation JsMap V := (list (Z * V)).

Fixpoint Map_get {V} (m : JsMap V) (k : Z) : option V :=
  match m with
  | [] => None
  | (k', v) :: m => if decide (k' = k) then Some v else Map_get m k
  end.

Definition Map_has {V} (m : JsMap V) (k : Z) : bool :=
  bool_decide (is_Some (Map_get m k)).

(** [set] overwrites the value of a key already present, in place, and appends
    a new key at the end. *)
Fixpoint Map_set {V} (m : JsMap V) (k : Z) (v : V) : JsMap V :=
  match m with
  | [] => [(k, v)]
  | (k', v') :: m => if decide (k' = k) then (k', v) :: m else (k', v') :: Map_set m k v
  end.

Definition Map_keys {V} (m : JsMap V) : list Z := m.*1.

(** [TimelineData], with the fields listed for it in the planning notes
    (there quoted from [types/game.ts]); [C] is the type of the engine object.
    [xOffset] is a rendering offset the transaction never reads. *)
Record TimelineData (C : Type) := mkTimelineData {
  id : Z;
  chess : C;
  moveHistory : list Move;
  snapshots : list AnySnapshot;
  parentId : option Z;
  branchTurn : Z;
  xOffset : Z;
  name : string
}.
Arguments mkTimelineData {C}.
Arguments id {C}.
Arguments chess {C}.
Arguments moveHistory {C}.
Arguments snapshots {C}.
Arguments parentId {C}.
Arguments branchTurn {C}.
Arguments xOffset {C}.
Arguments name {C}.

(** Captured state of a timeline for rollback. *)
Record TimelineState := mkTimelineState {
  st_id : Z;
  st_fen : string;
  st_moveHistory : list Move;
  st_snapshots : list AnySnapshot;
  st_label : string
}.

(** The fields of the [TimelineTransaction] object. *)
Record Transaction := mkTransaction {
  capturedStates : JsMap TimelineState;
  newTimelineIds : list Z;
  committed : bool;
  rolledBack : bool
}.

(** [new TimelineTransaction()] *)
Definition newTransaction : Transaction :=
  {| capturedStates := []; newTimelineIds := []; committed := false; rolledBack := false |}.

(** What a call does to the world outside the transaction object, in order:
    calls of the deletion callback, mutations of the registry and of the
    timelines in it, and the [console.warn] / [console.error] lines.  The
    informational [console.log] lines are not modelled. *)
Inductive event :=
  | CallOnDelete (id : Z)
  | DeleteTimeline (id : Z)
  | WarnNotFound (id : Z)
  | LoadFen (id : Z) (fen : string) (loaded : bool)
  | ErrorFenRestore (id : Z) (fen : string)
  | SetMoveHistory (id : Z)
  | SetSnapshots (id : Z)
  | WarnDuplicateRollback.

(** The objects a method call can touch: the transaction ([this]), the
    registry [timelines: Record<number, TimelineData>] with the timelines it
    holds, and the trace of events so far. *)
Record World (C : Type) := mkWorld {
  tx : Transaction;
  timelines : gmap Z (TimelineData C);
  trace : list event
}.
Arguments mkWorld {C}.
Arguments tx {C}.
Arguments timelines {C}.
Arguments trace {C}.

(** ** State-and-exception monad

    An exception does not undo what was done before it was thrown, so the
    world is returned in both cases. *)
Inductive outcome (A : Type) :=
  | Return (a : A)
  | Throw (msg : string).
Arguments Return {A} a.
Arguments Throw {A} msg.

Definition M (C A : Type) : Type := World C → World C * outcome A.

Section Monad.
Context {C : Type}.

Definition ret {A} (a : A) : M C A := fun w => (w, Return a).

Definition bind {A B} (m : M C A) (k : A → M C B) : M C B := fun w =>
  match m w with
  | (w', Return a) => k a w'
  | (w', Throw msg) => (w', Throw msg)
  end.

Definition throw {A} (msg : string) : M C A := fun w => (w, Throw msg).

(** [this] *)
Definition getThis : M C Transaction := fun w => (w, Return (tx w)).

Definition setThis (t : Transaction) : M C unit := fun w =>
  ({| tx := t; timelines := timelines w; trace := trace w |}, Return tt).

Definition emit (e : event) : M C unit := fun w =>
  ({| tx := tx w; timelines := timelines w; trace := trace w ++ [e] |}, Return tt).

(** [timelines[id]] *)
Definition getTimeline (id : Z) : M C (option (TimelineData C)) := fun w =>
  (w, Return (timelines w !! id)).

Definition setRegistry (reg : gmap Z (TimelineData C)) : M C unit := fun w =>
  ({| tx := tx w; timelines := reg; trace := trace w |}, Return tt).

(** A write to the timeline object stored under [id]. *)
Definition updateTimeline (id : Z) (f : TimelineData C → TimelineData C) : M C unit :=
  fun w => setRegistry (alter f id (timelines w)) w.

(** [for (const x of l) { f(x) }] *)
Fixpoint forEach {A} (f : A → M C unit) (l : list A) : M C unit :=
  match l with
  | [] => ret tt
  | x :: l => bind (f x) (fun _ => forEach f l)
  end.
End Monad.

Notation "'do' x <- m ; k" := (bind m (fun x => k))
  (at level 10, x name, m at level 100, k at level 200).
Notation "m ;; k" := (bind m (fun _ => k))
  (at level 100, k at level 200, right associativity).

(** ** The methods of [TimelineTransaction] *)

Section Methods.
Context {C : Type} `{!ChessInstance C}.

Definition isFinalized (this : Transaction) : bool := committed this || rolledBack this.
Definition isCommitted (this : Transaction) : bool := committed this.
Definition isRolledBack (this : Transaction) : bool := rolledBack this.

Definition captureTimeline (timeline : TimelineData C) (label : string) : M C unit :=
  do this <- getThis;
  if committed this || rolledBack this then throw "Transaction already finalized"
  else if Map_has (capturedStates this) (id timeline) then ret tt
  else
    let state := {| st_id := id timeline;
                    st_fen := fen (chess timeline);
                    st_moveHistory := deepCloneMoveHistory (moveHistory timeline);
                    st_snapshots := deepCloneSnapshots (snapshots timeline);
                    st_label := label |} in
    setThis {| capturedStates := Map_set (capturedStates this) (id timeline) state;
               newTimelineIds := newTimelineIds this;
               committed := committed this;
               rolledBack := rolledBack this |}.

Definition captureNewTimeline (id : Z) : M C unit :=
  do this <- getThis;
  if committed this || rolledBack this then throw "Transaction already finalized"
  else
    setThis {| capturedStates := capturedStates this;
               newTimelineIds := newTimelineIds this ++ [id];
               committed := committed this;
               rolledBack := rolledBack this |}.

Definition commit : M C unit :=
  do this <- getThis;
  if committed this || rolledBack this then throw "Transaction already finalized"
  else
    setThis {| capturedStates := capturedStates this;
               newTimelineIds := newTimelineIds this;
               committed := true;
               rolledBack := rolledBack this |}.

(** Body of the first loop of [rollback].  [onDeleteTimeline] is the optional
    callback of the rendering layer: what it does there is outside this model,
    which takes it to return normally and to leave the registry and the
    transaction alone.  The argument says whether a callback was passed, and
    each call made to it is an event of the trace. *)
Definition deleteNewTimeline (onDeleteTimeline : bool) (newId : Z) : M C unit :=
  do timeline <- getTimeline newId;
  match timeline with
  | Some _ =>
      (if onDeleteTimeline then emit (CallOnDelete newId) else ret tt) ;;
      emit (DeleteTimeline newId) ;;
      (fun w => setRegistry (delete newId (timelines w)) w)
  | None => ret tt
  end.

Definition set_chess (c : C) (t : TimelineData C) : TimelineData C :=
  {| id := id t; chess := c; moveHistory := moveHistory t; snapshots := snapshots t;
     parentId := parentId t; branchTurn := branchTurn t; xOffset := xOffset t;
     name := name t |}.

Definition set_moveHistory (mh : list Move) (t : TimelineData C) : TimelineData C :=
  {| id := id t; chess := chess t; moveHistory := mh; snapshots := snapshots t;
     parentId := parentId t; branchTurn := branchTurn t; xOffset := xOffset t;
     name := name t |}.

Definition set_snapshots (sn : list AnySnapshot) (t : TimelineData C) : TimelineData C :=
  {| id := id t; chess := chess t; moveHistory := moveHistory t; snapshots := sn;
     parentId := parentId t; branchTurn := branchTurn t; xOffset := xOffset t;
     name := name t |}.

(** Body of the second loop of [rollback], for one entry [[id, state]] of
    [capturedStates]. *)
Definition restoreTimeline (entry : Z * TimelineState) : M C unit :=
  let '(id, state) := entry in
  do timeline <- getTimeline id;
  match timeline with
  | None => emit (WarnNotFound id)
  | Some timeline =>
      let '(chess', loaded) := load (chess timeline) (st_fen state) in
      emit (LoadFen id (st_fen state) loaded) ;;
      updateTimeline id (set_chess chess') ;;
      (if loaded then ret tt else emit (ErrorFenRestore id (st_fen state))) ;;
      emit (SetMoveHistory id) ;;
      updateTimeline id (set_moveHistory (deepCloneMoveHistory (st_moveHistory state))) ;;
      emit (SetSnapshots id) ;;
      updateTimeline id (set_snapshots (deepCloneSnapshots (st_snapshots state)))
  end.

Definition rollback (onDeleteTimeline : bool) : M C unit :=
  do this <- getThis;
  if committed this then throw "Cannot rollback a committed transaction"
  else if rolledBack this then emit WarnDuplicateRollback
  else
    forEach (deleteNewTimeline onDeleteTimeline) (newTimelineIds this) ;;
    forEach restoreTimeline (capturedStates this) ;;
    setThis {| capturedStates := capturedStates this;
               newTimelineIds := newTimelineIds this;
               committed := committed this;
               rolledBack := true |}.

(** *** Life of a transaction *)

(** The calls a client can make on a transaction. *)
Inductive call :=
  | CaptureTimeline (timeline : TimelineData C) (label : string)
  | CaptureNewTimeline (id : Z)
  | Commit
  | Rollback (onDeleteTimeline : bool).

Definition run (c : call) : M C unit :=
  match c with
  | CaptureTimeline timeline label => captureTimeline timeline label
  | CaptureNewTimeline id => captureNewTimeline id
  | Commit => commit
  | Rollback cb => rollback cb
  end.

(** Between two calls the client (the move orchestrator) may change the
    registry and its timelines in any way. *)
Inductive step : World C → World C → Prop :=
  | step_call c w : step w (run c w).1
  | step_client reg w : step w (setRegistry reg w).1.

Definition initial (reg : gmap Z (TimelineData C)) : World C :=
  {| tx := newTransaction; timelines := reg; trace := [] |}.

Definition reachable (w : World C) : Prop := ∃ reg, rtc step (initial reg) w.

(** What the specification calls the state of a timeline: positional string,
    move history and snapshot list. *)
Definition timeline_state (t : TimelineData C) : string * list Move * list AnySnapshot :=
  (fen (chess t), moveHistory t, snapshots t).

(** Invariant of the transaction object. *)
Definition captured_ok (entry : Z * TimelineState) : Prop :=
  st_id entry.2 = entry.1 ∧
  deepCloneSnapshots (st_snapshots entry.2) = st_snapshots entry.2.

Definition tx_inv (this : Transaction) : Prop :=
  NoDup (Map_keys (capturedStates this)) ∧
  Forall captured_ok (capturedStates this) ∧
  (committed this && rolledBack this = false).
End Methods.

(** ** The clone helpers on an object heap

    Structural equality cannot tell a copy from its original.  To say that a
    clone shares no object with its input, arrays, pieces and snapshot objects
    live in a heap and are referred to by location; [new] objects are
    allocated at the end of the heap. *)

Module ObjectHeap.
Local Open Scope nat_scope.

Abbreviation loc := nat.

Inductive value :=
  | Undefined
  | Null
  | Ref (l : loc).

Inductive object :=
  | PieceObj (type : PieceType) (color : Color)
  | ArrayObj (elems : list value)
  | SnapshotObj (fen : string) (board : value).

Abbreviation heap := (list object).

(** Heap computations; [None] is a run on a heap that is not typed as the
    TypeScript declarations say (an index applied to a piece, say). *)
Definition H (A : Type) : Type := heap → option (A * heap).

Definition hret {A} (a : A) : H A := fun h => Some (a, h).

Definition hbind {A B} (m : H A) (k : A → H B) : H B := fun h =>
  match m h with
  | Some (a, h') => k a h'
  | None => None
  end.

Definition hfail {A} : H A := fun _ => None.

(** An object or array literal. *)
Definition alloc (o : object) : H value := fun h => Some (Ref (length h), h ++ [o]).

Definition deref (v : value) : H object := fun h =>
  match v with
  | Ref l => o ← h !! l; Some (o, h)
  | _ => None
  end.

(** [a[i]]: [undefined] past the end of the array. *)
Definition array_get (a : value) (i : nat) : H value :=
  hbind (deref a) (fun o =>
    match o with
    | ArrayObj elems => hret (default Undefined (elems !! i))
    | _ => hfail
    end).

(** [a?.[i]] *)
Definition array_get_opt (a : value) (i : nat) : H value :=
  match a with
  | Undefined | Null => hret Undefined
  | Ref _ => array_get a i
  end.

(** [a[i] = v]: a write past the end extends the array, leaving
    [undefined] in between. *)
Definition array_store (elems : list value) (i : nat) (v : value) : list value :=
  if decide (i < length elems) then <[i := v]> elems
  else elems ++ replicate (i - length elems) Undefined ++ [v].

Definition array_set (a : value) (i : nat) (v : value) : H unit := fun h =>
  match a with
  | Ref l =>
      match h !! l with
      | Some (ArrayObj elems) => Some (tt, <[l := ArrayObj (array_store elems i v)]> h)
      | _ => None
      end
  | _ => None
  end.

Fixpoint hforEach {A} (f : A → H unit) (l : list A) : H unit :=
  match l with
  | [] => hret tt
  | x :: l => hbind (f x) (fun _ => hforEach f l)
  end.

(** [p ? { type: p.type, color: p.color } : null] *)
Definition clone_piece (p : value) : H value :=
  match p with
  | Undefined | Null => hret Null
  | Ref _ =>
      hbind (deref p) (fun o =>
        match o with
        | PieceObj ty co => alloc (PieceObj ty co)
        | _ => hfail
        end)
  end.

(** Body of the inner loop: [const p = board[r]?.[c]; clone[r][c] = ...]. *)
Definition clone_cell_at (board clone : value) (r c : nat) : H unit :=
  hbind (array_get board r) (fun row =>
  hbind (array_get_opt row c) (fun p =>
  hbind (array_get clone r) (fun clone_r =>
  hbind (clone_piece p) (fun v =>
  array_set clone_r c v)))).

(** Body of the outer loop: [clone[r] = []], then the inner loop. *)
Definition clone_row_at (board clone : value) (r : nat) : H unit :=
  hbind (alloc (ArrayObj [])) (fun fresh_row =>
  hbind (array_set clone r fresh_row) (fun _ =>
  hforEach (clone_cell_at board clone r) (seq 0 8))).

Definition deepCloneBoard (board : value) : H value :=
  hbind (alloc (ArrayObj [])) (fun clone =>
  hbind (hforEach (clone_row_at board clone) (seq 0 8)) (fun _ =>
  hret clone)).

(** [Array.isArray(snapshot)] chooses between the two formats. *)
Definition deepCloneSnapshot (snapshot : value) : H value :=
  hbind (deref snapshot) (fun o =>
    match o with
    | ArrayObj _ => deepCloneBoard snapshot
    | SnapshotObj f b =>
        hbind (deepCloneBoard b) (fun b' => alloc (SnapshotObj f b'))
    | PieceObj _ _ => hfail
    end).

(** *** Reading a heap structure as a value of the data model *)

Definition read_cell (h : heap) (v : value) : option (option Piece) :=
  match v with
  | Null => Some None
  | Ref l =>
      match h !! l with
      | Some (PieceObj ty co) => Some (Some {| type := ty; color := co |})
      | _ => None
      end
  | Undefined => None
  end.

Definition read_row (h : heap) (v : value) : option Row :=
  match v with
  | Ref l =>
      match h !! l with
      | Some (ArrayObj cells) => mapM (read_cell h) cells
      | _ => None
      end
  | _ => None
  end.

Definition read_board (h : heap) (v : value) : option Board :=
  match v with
  | Ref l =>
      match h !! l with
      | Some (ArrayObj rows) => mapM (read_row h) rows
      | _ => None
      end
  | _ => None
  end.

Definition read_snapshot (h : heap) (v : value) : option AnySnapshot :=
  match v with
  | Ref l =>
      match h !! l with
      | Some (ArrayObj rows) => BareBoard <$> mapM (read_row h) rows
      | Some (SnapshotObj f b) => FenBoard f <$> read_board h b
      | _ => None
      end
  | _ => None
  end.

(** *** The objects a structure is made of *)

Definition value_locs (v : value) : list loc :=
  match v with Ref l => [l] | _ => [] end.

Definition array_elems (h : heap) (v : value) : list value :=
  match v with
  | Ref l => match h !! l with Some (ArrayObj elems) => elems | _ => [] end
  | _ => []
  end.

(** The row array and the piece objects in it. *)
Definition row_locs (h : heap) (v : value) : list loc :=
  value_locs v ++ (array_elems h v ≫= value_locs).

(** The board array, its rows and their pieces. *)
Definition board_locs (h : heap) (v : value) : list loc :=
  value_locs v ++ (array_elems h v ≫= row_locs h).

(** The snapshot object, when there is one, and its board. *)
Definition snapshot_locs (h : heap) (v : value) : list loc :=
  match v with
  | Ref l =>
      match h !! l with
      | Some (SnapshotObj _ b) => l :: board_locs h b
      | _ => board_locs h v
      end
  | _ => []
  end.

(** *** Vocabulary for the statements about the heap version *)

(** [h'] still has every object of [h], unchanged. *)
Definition preserves (h h' : heap) : Prop :=
  ∀ l o, h !! l = Some o → h' !! l = Some o.

(** The value [p] read by [board[r]?.[c]] against the cell [x] of the board
    as a value: [undefined] outside the board, [null] for an empty cell, a
    reference to a piece object otherwise. *)
Definition cell_matches (h : heap) (p : value) (x : option (option Piece)) : Prop :=
  match x with
  | None => p = Undefined
  | Some None => p = Null
  | Some (Some q) => ∃ l, p = Ref l ∧ h !! l = Some (PieceObj (type q) (color q))
  end.

(** What [clone_piece] returns and leaves for a cell whose clone is [x]. *)
Definition cloned_cell_value (h : heap) (x : option Piece) : value :=
  match x with None => Null | Some _ => Ref (length h) end.

Definition cloned_cell_heap (h : heap) (x : option Piece) : heap :=
  match x with None => h | Some q => h ++ [PieceObj (type q) (color q)] end.

(** Every object of the structure was allocated after [h] and is in [h']. *)
Definition allocated_between (h h' : heap) (locs : list loc) : Prop :=
  ∀ l, l ∈ locs → length h ≤ l < length h'.

(** *** Building a heap structure from a value, for concrete inputs *)

Fixpoint store_list {A} (f : A → H value) (l : list A) : H (list value) :=
  match l with
  | [] => hret []
  | x :: l =>
      hbind (f x) (fun v => hbind (store_list f l) (fun vs => hret (v :: vs)))
  end.

Definition store_cell (x : option Piece) : H value :=
  match x with
  | None => hret Null
  | Some q => alloc (PieceObj (type q) (color q))
  end.

Definition store_row (row : Row) : H value :=
  hbind (store_list store_cell row) (fun cells => alloc (ArrayObj cells)).

Definition store_board (b : Board) : H value :=
  hbind (store_list store_row b) (fun rows => alloc (ArrayObj rows)).

Definition store_snapshot (s : AnySnapshot) : H value :=
  match s with
  | BareBoard b => store_board b
  | FenBoard f b => hbind (store_board b) (fun bv => alloc (SnapshotObj f bv))
  end.
End ObjectHeap.

(** ** Vocabulary for the statements about [rollback] *)

#[export] Instance event_eq_dec : EqDecision event.
Proof. solve_decision. Defined.

(** Events of the first loop of [rollback]. *)
Definition is_deletion_event (e : event) : bool :=
  match e with
  | CallOnDelete _ | DeleteTimeline _ => true
  | _ => false
  end.

(** Events of the second loop of [rollback]. *)
Definition is_restore_event (e : event) : bool :=
  match e with
  | WarnNotFound _ | LoadFen _ _ _ | ErrorFenRestore _ _
  | SetMoveHistory _ | SetSnapshots _ => true
  | _ => false
  end.

(** How many times [e] occurs in a trace. *)
Definition occurrences (e : event) (tr : list event) : nat :=
  length (filter (fun e' => e' = e) tr).

Section Restored.
Context {C : Type} `{!ChessInstance C}.

(** The timeline [t] after the second loop of [rollback] has written the
    captured [state] back into it. *)
Definition restored (state : TimelineState) (t : TimelineData C) : TimelineData C :=
  set_snapshots (deepCloneSnapshots (st_snapshots state))
    (set_moveHistory (deepCloneMoveHistory (st_moveHistory state))
       (set_chess (load (chess t) (st_fen state)).1 t)).

(** The registry entry under [k] after the second loop, from the entry
    [o] before it. *)
Definition restore_entry (entries : JsMap TimelineState) (k : Z)
    (o : option (TimelineData C)) : option (TimelineData C) :=
  match Map_get entries k with
  | Some state => restored state <$> o
  | None => o
  end.

(** The registry entry under [k] after the first loop. *)
Definition delete_entry (ids : list Z) (k : Z)
    (o : option (TimelineData C)) : option (TimelineData C) :=
  if decide (k ∈ ids) then None else o.
End Restored.

Section LoopSummaries.
Context {C : Type} `{!ChessInstance C}.

(** The two loops of [rollback] as functions of the registry they start
    from: the registry they leave and the events they add. *)
Fixpoint delete_all (ids : list Z) (reg : gmap Z (TimelineData C)) : gmap Z (TimelineData C) :=
  match ids with
  | [] => reg
  | newId :: ids => delete_all ids (delete newId reg)
  end.

Fixpoint deletion_events (onDeleteTimeline : bool) (ids : list Z)
    (reg : gmap Z (TimelineData C)) : list event :=
  match ids with
  | [] => []
  | newId :: ids =>
      match reg !! newId with
      | Some _ =>
          (if onDeleteTimeline then [CallOnDelete newId] else []) ++
          DeleteTimeline newId :: deletion_events onDeleteTimeline ids (delete newId reg)
      | None => deletion_events onDeleteTimeline ids reg
      end
  end.

Fixpoint restore_all (entries : JsMap TimelineState)
    (reg : gmap Z (TimelineData C)) : gmap Z (TimelineData C) :=
  match entries with
  | [] => reg
  | (id, state) :: entries => restore_all entries (alter (restored state) id reg)
  end.

Definition restore_events_of (id : Z) (state : TimelineState)
    (o : option (TimelineData C)) : list event :=
  match o with
  | None => [WarnNotFound id]
  | Some timeline =>
      let loaded := (load (chess timeline) (st_fen state)).2 in
      LoadFen id (st_fen state) loaded ::
      (if loaded then [] else [ErrorFenRestore id (st_fen state)]) ++
      [SetMoveHistory id; SetSnapshots id]
  end.

Fixpoint restore_events (entries : JsMap TimelineState)
    (reg : gmap Z (TimelineData C)) : list event :=
  match entries with
  | [] => []
  | (id, state) :: entries =>
      restore_events_of id state (reg !! id) ++
      restore_events entries (alter (restored state) id reg)
  end.

(** The transaction object once [rollback] has run. *)
Definition mark_rolledBack (this : Transaction) : Transaction :=
  {| capturedStates := capturedStates this;
     newTimelineIds := newTimelineIds this;
     committed := committed this;
     rolledBack := true |}.

Definition mark_committed (this : Transaction) : Transaction :=
  {| capturedStates := capturedStates this;
     newTimelineIds := newTimelineIds this;
     committed := true;
     rolledBack := rolledBack this |}.
End LoopSummaries.

Section StateMachine.
Context {C : Type} `{!ChessInstance C}.

(** The [TimelineState] that [captureTimeline] builds from a timeline. *)
Definition captured_state (timeline : TimelineData C) (label : string) : TimelineState :=
  {| st_id := id timeline;
     st_fen := fen (chess timeline);
     st_moveHistory := deepCloneMoveHistory (moveHistory timeline);
     st_snapshots := deepCloneSnapshots (snapshots timeline);
     st_label := label |}.

Definition add_captured (timeline : TimelineData C) (label : string)
    (this : Transaction) : Transaction :=
  {| capturedStates := capturedStates this ++ [(id timeline, captured_state timeline label)];
     newTimelineIds := newTimelineIds this;
     committed := committed this;
     rolledBack := rolledBack this |}.

Definition add_newTimeline (newId : Z) (this : Transaction) : Transaction :=
  {| capturedStates := capturedStates this;
     newTimelineIds := newTimelineIds this ++ [newId];
     committed := committed this;
     rolledBack := rolledBack this |}.

(** The moves of the transaction object: [Open -> {Committed, RolledBack}],
    with captures while open. *)
Inductive tx_step : Transaction → Transaction → Prop :=
  | tx_stay this : tx_step this this
  | tx_capture this timeline label :
      isFinalized this = false →
      Map_get (capturedStates this) (id timeline) = None →
      tx_step this (add_captured timeline label this)
  | tx_captureNew this newId :
      isFinalized this = false →
      tx_step this (add_newTimeline newId this)
  | tx_commit this :
      isFinalized this = false →
      tx_step this (mark_committed this)
  | tx_rollback this :
      isFinalized this = false →
      tx_step this (mark_rolledBack this).
End StateMachine.

(** ** Concrete inputs

    A game on [StringChess] engines: the main timeline before and after
    1. e4, and a branch timeline. *)

Module Example.
Definition back_rank (c : Color) : Row :=
  map (fun ty => Some {| type := ty; color := c |})
    [Rook; Knight; Bishop; Queen; King; Bishop; Knight; Rook].

Definition pawns (c : Color) : Row := replicate 8 (Some {| type := Pawn; color := c |}).

Definition pawn_at (c : Color) (col : nat) : Row :=
  <[col := Some {| type := Pawn; color := c |}]> empty_row.

Definition pawns_but (c : Color) (col : nat) : Row := <[col := None]> (pawns c).

Definition start_board : Board :=
  [back_rank Black; pawns Black; empty_row; empty_row;
   empty_row; empty_row; pawns White; back_rank White].

Definition e4_board : Board :=
  [back_rank Black; pawns Black; empty_row; empty_row;
   pawn_at White 4; empty_row; pawns_but White 4; back_rank White].

Definition e5_board : Board :=
  [back_rank Black; pawns_but Black 4; empty_row; pawn_at Black 4;
   pawn_at White 4; empty_row; pawns_but White 4; back_rank White].

Definition start_fen : string := "rnbqkbnr/pppppppp/8/8/8/8/PPPPPPPP/RNBQKBNR w KQkq - 0 1".
Definition e4_fen : string := "rnbqkbnr/pppppppp/8/8/4P3/8/PPPP1PPP/RNBQKBNR b KQkq e3 0 1".
Definition e5_fen : string := "rnbqkbnr/pppp1ppp/8/4p3/4P3/8/PPPP1PPP/RNBQKBNR w KQkq e6 0 2".

Definition move_e4 : Move :=
  {| from := "e2"; to := "e4"; piece := {| type := Pawn; color := White |}; captured := None;
     san := "e4"; isWhite := true; promotion := None |}.

Definition move_e5 : Move :=
  {| from := "e7"; to := "e5"; piece := {| type := Pawn; color := Black |}; captured := None;
     san := "e5"; isWhite := false; promotion := None |}.

(** The main timeline after 1. e4, the state the transaction captures. *)
Definition main_e4 : TimelineData StringChess :=
  {| id := 0; chess := e4_fen; moveHistory := [move_e4];
     snapshots := [FenBoard e4_fen e4_board];
     parentId := None; branchTurn := -1; xOffset := 0; name := "Main" |}.

(** The main timeline after 1... e5, played while the transaction is open. *)
Definition main_e5 : TimelineData StringChess :=
  {| id := 0; chess := e5_fen; moveHistory := [move_e4; move_e5];
     snapshots := [FenBoard e4_fen e4_board; FenBoard e5_fen e5_board];
     parentId := None; branchTurn := -1; xOffset := 0; name := "Main" |}.

(** A branch created from the main timeline, with an old-format snapshot. *)
Definition branch : TimelineData StringChess :=
  {| id := 1; chess := start_fen; moveHistory := []; snapshots := [BareBoard start_board];
     parentId := Some 0; branchTurn := 0; xOffset := 12; name := "Branch 1" |}.

(** A fresh transaction over a registry holding the main timeline. *)
Definition w_start : World StringChess := initial {[ 0 := main_e4 ]}.

(** The main timeline has been captured. *)
Definition w_captured : World StringChess :=
  (run (CaptureTimeline main_e4 "source") w_start).1.

(** ... then the client has played 1... e5 on it. *)
Definition w_moved : World StringChess :=
  (setRegistry {[ 0 := main_e5 ]} w_captured).1.

(** ... or has played the move, created the branch and recorded its id. *)
Definition w_branched : World StringChess :=
  (run (CaptureNewTimeline 1)
     (setRegistry {[ 0 := main_e5; 1 := branch ]} w_captured).1).1.

(** The id of the branch recorded twice. *)
Definition w_branched_twice : World StringChess :=
  (run (CaptureNewTimeline 1) w_branched).1.

Definition w_committed : World StringChess := (run Commit w_moved).1.

Definition w_rolledBack : World StringChess := (run (Rollback true) w_branched).1.

(** The id of the captured main timeline is also recorded as new. *)
Definition w_captured_and_new : World StringChess :=
  (setRegistry {[ 0 := main_e5 ]} (run (CaptureNewTimeline 0) w_captured).1).1.

(** A main timeline whose positional string the engine refuses to load. *)
Definition main_blank : TimelineData StringChess :=
  {| id := 0; chess := ""; moveHistory := [move_e4];
     snapshots := [FenBoard e4_fen e4_board];
     parentId := None; branchTurn := -1; xOffset := 0; name := "Main" |}.

Definition w_blank_moved : World StringChess :=
  (setRegistry {[ 0 := main_e5 ]}
     (run (CaptureTimeline main_blank "source") (initial {[ 0 := main_blank ]})).1).1.

(** The snapshot after 1. e4 as objects on a heap, in the new format, and
    the start position in the old format. *)
Definition e4_snapshot_heap : list ObjectHeap.object :=
  match ObjectHeap.store_snapshot (FenBoard e4_fen e4_board) [] with
  | Some (_, h) => h
  | None => []
  end.

Definition e4_snapshot_ref : ObjectHeap.value :=
  ObjectHeap.Ref (length e4_snapshot_heap - 1).

Definition start_snapshot_heap : list ObjectHeap.object :=
  match ObjectHeap.store_snapshot (BareBoard start_board) [] with
  | Some (_, h) => h
  | None => []
  end.

Definition start_snapshot_ref : ObjectHeap.value :=
  ObjectHeap.Ref (length start_snapshot_heap - 1).

(** A timeline the transaction has nothing to do with. *)
Definition side : TimelineData StringChess :=
  {| id := 2; chess := start_fen; moveHistory := []; snapshots := [];
     parentId := None; branchTurn := -1; xOffset := 24; name := "Side" |}.

(** The main timeline captured and moved, the branch created and recorded,
    the side timeline in the registry as well. *)
Definition w_three : World StringChess :=
  (run (CaptureNewTimeline 1)
     (setRegistry {[ 0 := main_e5; 1 := branch; 2 := side ]} w_captured).1).1.

(** A board of one row and one cell, as a bare-board snapshot on a heap. *)
Definition ragged_board : Board := [[Some {| type := Pawn; color := White |}]].

Definition ragged_snapshot_heap : list ObjectHeap.object :=
  match ObjectHeap.store_snapshot (BareBoard ragged_board) [] with
  | Some (_, h) => h
  | None => []
  end.

Definition ragged_snapshot_ref : ObjectHeap.value :=
  ObjectHeap.Ref (length ragged_snapshot_heap - 1).
End Example.

(** ** More vocabulary for the statements about [rollback] *)

(** The ids of the timelines a trace writes snapshots back into, in order. *)
Definition restored_ids (tr : list event) : list Z :=
  omap (fun e => match e with SetSnapshots k => Some k | _ => None end) tr.

Section CallSteps.
Context {C : Type} `{!ChessInstance C}.

(** One method call, of any kind. *)
Definition call_step (w w' : World C) : Prop := ∃ c, w' = (run c w).1.

(** One method call other than [rollback]. *)
Definition capture_or_commit_step (w w' : World C) : Prop :=
  ∃ c, (∀ cb, c ≠ Rollback cb) ∧ w' = (run c w).1.
End CallSteps.

(** ** Square names of the rendering layer

    [_toSq] and [_fromSq] of [TimelineCol] (the second also a method of
    [Board3DManager]).  A JavaScript string is a sequence of UTF-16 code
    units; the numbers involved are integers or [NaN], which is [None]. *)

Module Board3D.
Abbreviation JsString := (list Z).

(** [String.fromCharCode(n)]: the code unit is [n] modulo 2^16, and 0 for
    [NaN]. *)
Definition fromCharCode (n : option Z) : JsString :=
  [match n with Some n => n mod 65536 | None => 0 end].

(** [s.charCodeAt(i)]: [NaN] outside the string. *)
Definition charCodeAt (s : JsString) (i : nat) : option Z := s !! i.

(** [parseInt(s[i])]: [s[i]] is one code unit or [undefined], so the result
    is the value of a decimal digit, and [NaN] for everything else. *)
Definition parseInt_at (s : JsString) (i : nat) : option Z :=
  match s !! i with
  | Some u => if decide (48 ≤ u ≤ 57) then Some (u - 48) else None
  | None => None
  end.

Fixpoint uint_units (d : Decimal.uint) : JsString :=
  match d with
  | Decimal.Nil => []
  | Decimal.D0 d => 48 :: uint_units d
  | Decimal.D1 d => 49 :: uint_units d
  | Decimal.D2 d => 50 :: uint_units d
  | Decimal.D3 d => 51 :: uint_units d
  | Decimal.D4 d => 52 :: uint_units d
  | Decimal.D5 d => 53 :: uint_units d
  | Decimal.D6 d => 54 :: uint_units d
  | Decimal.D7 d => 55 :: uint_units d
  | Decimal.D8 d => 56 :: uint_units d
  | Decimal.D9 d => 57 :: uint_units d
  end.

(** The string a number becomes when it is appended to a string: decimal
    digits with a minus sign for an integer (below 10^21 in absolute value,
    where JavaScript switches to exponents), ["NaN"] for [NaN]. *)
Definition number_to_string (n : option Z) : JsString :=
  match n with
  | Some n =>
      match Z.to_int n with
      | Decimal.Pos d => uint_units d
      | Decimal.Neg d => 45 :: uint_units d
      end
  | None => [78; 97; 78]
  end.

Definition num_add (a b : option Z) : option Z := a' ← a; b' ← b; Some (a' + b').
Definition num_sub (a b : option Z) : option Z := a' ← a; b' ← b; Some (a' - b').

(** [{ r, c }] *)
Record RowCol := mkRowCol { r : option Z; c : option Z }.

Definition _toSq (r c : option Z) : JsString :=
  fromCharCode (num_add (Some 97) c) ++ number_to_string (num_sub (Some 8) r).

Definition _fromSq (sq : JsString) : RowCol :=
  {| r := num_sub (Some 8) (parseInt_at sq 1);
     c := num_sub (charCodeAt sq 0) (Some 97) |}.

(** ["e4"] as code units. *)
Definition square_e4 : JsString := [101; 52].
End Board3D.


(** * Properties *)

(** ** Clone helpers on values *)

Lemma clone_cell_present (p : Piece) : clone_cell (Some (Some p)) = Some p.
Proof. by destruct p. Qed.

Lemma deepCloneMoveHistory_id (moves : list Move) : deepCloneMoveHistory moves = moves.
Proof.
  unfold deepCloneMoveHistory.
  induction moves as [|m moves IH]; [done|].
  cbn [map]. rewrite IH. by destruct m.
Qed.

(** A loop that fills index [i] with [f i] rebuilds a list whose [i]-th
    element is [f i]. *)
Lemma map_seq_rebuild {A} (f : nat → A) (l : list A) (n : nat) :
  length l = n →
  (∀ i x, l !! i = Some x → f i = x) →
  map f (seq 0 n) = l.
Proof.
  intros Hlen Hf. apply list_eq. intros i.
  change (map f (seq 0 n)) with (f <$> seq 0 n).
  rewrite list_lookup_fmap.
  destruct (decide (i < n)%nat) as [Hi|Hi].
  - rewrite lookup_seq_lt by done. cbn.
    destruct (lookup_lt_is_Some_2 l i) as [x Hx]; [lia|].
    rewrite Hx. f_equal. by apply Hf.
  - rewrite lookup_seq_ge by lia. cbn.
    symmetry. apply lookup_ge_None_2. lia.
Qed.

Lemma deepCloneBoard_8x8 (b : Board) : board_8x8 b → deepCloneBoard b = b.
Proof.
  intros [Hrows Hcols]. unfold deepCloneBoard.
  apply map_seq_rebuild; [done|].
  intros r row Hr.
  rewrite Forall_lookup in Hcols.
  apply map_seq_rebuild; [by eapply Hcols|].
  intros c cell Hc.
  unfold board_at. rewrite Hr. cbn. rewrite Hc.
  destruct cell as [p|]; [apply clone_cell_present | done].
Qed.

Lemma deepCloneBoard_shape (b : Board) : board_8x8 (deepCloneBoard b).
Proof.
  split; [done|].
  unfold deepCloneBoard. apply Forall_forall. intros row Hrow.
  apply list_elem_of_fmap in Hrow as (r & -> & _). done.
Qed.

Lemma deepCloneBoard_idemp (b : Board) :
  deepCloneBoard (deepCloneBoard b) = deepCloneBoard b.
Proof. apply deepCloneBoard_8x8, deepCloneBoard_shape. Qed.

Lemma deepCloneSnapshot_8x8 (s : AnySnapshot) : snapshot_8x8 s → deepCloneSnapshot s = s.
Proof.
  destruct s as [b|f b]; unfold snapshot_8x8, deepCloneSnapshot;
    cbn [snapshot_board]; intros Hb; f_equal; by apply deepCloneBoard_8x8.
Qed.

Lemma deepCloneSnapshot_idemp (s : AnySnapshot) :
  deepCloneSnapshot (deepCloneSnapshot s) = deepCloneSnapshot s.
Proof. destruct s; unfold deepCloneSnapshot; f_equal; apply deepCloneBoard_idemp. Qed.

Lemma deepCloneSnapshots_8x8 (l : list AnySnapshot) :
  Forall snapshot_8x8 l → deepCloneSnapshots l = l.
Proof.
  unfold deepCloneSnapshots. induction 1 as [|s l Hs _ IH]; [done|].
  cbn [map]. by rewrite deepCloneSnapshot_8x8, IH.
Qed.

Lemma deepCloneSnapshots_idemp (l : list AnySnapshot) :
  deepCloneSnapshots (deepCloneSnapshots l) = deepCloneSnapshots l.
Proof.
  unfold deepCloneSnapshots. induction l as [|s l IH]; [done|].
  cbn [map]. by rewrite deepCloneSnapshot_idemp, IH.
Qed.

(** Outside the 8x8 format the clone is not a copy: it is cut or padded with
    [null] to eight rows of eight cells. *)
Lemma deepCloneBoard_pads : deepCloneBoard [] = empty_board.
Proof. reflexivity. Qed.

(** ** The [Map] of captured states *)

Section MapFacts.
Context {V : Type}.
Implicit Types (m : JsMap V) (k : Z) (v : V).

Lemma Map_has_false m k : Map_has m k = false ↔ Map_get m k = None.
Proof.
  unfold Map_has. rewrite bool_decide_eq_false.
  destruct (Map_get m k) as [v|].
  - split; [intros Hn; exfalso; eauto | done].
  - split; [done | intros _ [? ?]; done].
Qed.

Lemma Map_has_true m k : Map_has m k = true ↔ is_Some (Map_get m k).
Proof. unfold Map_has. by rewrite bool_decide_eq_true. Qed.

Lemma Map_get_None m k : Map_get m k = None ↔ k ∉ Map_keys m.
Proof.
  unfold Map_keys. induction m as [|[k' v'] m IH]; cbn.
  - split; [intros _; apply not_elem_of_nil | done].
  - rewrite not_elem_of_cons. destruct (decide (k' = k)) as [->|Hne].
    + split; [done | by intros [? _]].
    + rewrite IH. split; [by intros ?; split | by intros [_ ?]].
Qed.

Lemma Map_get_elem_of m k v : Map_get m k = Some v → (k, v) ∈ m.
Proof.
  induction m as [|[k' v'] m IH]; cbn; [done|].
  destruct (decide (k' = k)) as [->|Hne].
  - intros [= ->]. apply list_elem_of_here.
  - intros Hget. apply list_elem_of_further. by apply IH.
Qed.

Lemma Map_set_fresh m k v : Map_get m k = None → Map_set m k v = m ++ [(k, v)].
Proof.
  induction m as [|[k' v'] m IH]; cbn; [done|].
  destruct (decide (k' = k)); [done|].
  intros Hget. by rewrite IH.
Qed.

Lemma Map_get_snoc m k k' v :
  Map_get (m ++ [(k, v)]) k' =
  match Map_get m k' with
  | Some v' => Some v'
  | None => if decide (k = k') then Some v else None
  end.
Proof.
  induction m as [|[k0 v0] m IH]; cbn; [done|].
  by destruct (decide (k0 = k')).
Qed.
End MapFacts.

(** ** What each method computes *)

Section MethodFacts.
Context {C : Type} `{!ChessInstance C}.
Implicit Types (w : World C) (reg : gmap Z (TimelineData C)) (this : Transaction).

Lemma world_eta w : {| tx := tx w; timelines := timelines w; trace := trace w |} = w.
Proof. by destruct w. Qed.

Lemma isFinalized_false this :
  isFinalized this = false ↔ committed this = false ∧ rolledBack this = false.
Proof. unfold isFinalized. apply orb_false_iff. Qed.

Lemma captureTimeline_finalized timeline label w :
  isFinalized (tx w) = true →
  captureTimeline timeline label w = (w, Throw "Transaction already finalized").
Proof.
  unfold isFinalized, captureTimeline, bind, getThis, throw. by intros ->.
Qed.

Lemma captureTimeline_again timeline label w :
  isFinalized (tx w) = false →
  Map_has (capturedStates (tx w)) (id timeline) = true →
  captureTimeline timeline label w = (w, Return tt).
Proof.
  unfold isFinalized, captureTimeline, bind, getThis, ret. by intros -> ->.
Qed.

Lemma captureTimeline_first timeline label w :
  isFinalized (tx w) = false →
  Map_has (capturedStates (tx w)) (id timeline) = false →
  captureTimeline timeline label w =
    ({| tx := {| capturedStates :=
                   capturedStates (tx w) ++
                   [(id timeline,
                     {| st_id := id timeline;
                        st_fen := fen (chess timeline);
                        st_moveHistory := deepCloneMoveHistory (moveHistory timeline);
                        st_snapshots := deepCloneSnapshots (snapshots timeline);
                        st_label := label |})];
                 newTimelineIds := newTimelineIds (tx w);
                 committed := committed (tx w);
                 rolledBack := rolledBack (tx w) |};
        timelines := timelines w;
        trace := trace w |}, Return tt).
Proof.
  unfold isFinalized, captureTimeline, bind, getThis, setThis.
  intros -> Hhas. rewrite Hhas.
  apply Map_has_false in Hhas. by rewrite Map_set_fresh.
Qed.

Lemma captureNewTimeline_finalized newId w :
  isFinalized (tx w) = true →
  captureNewTimeline newId w = (w, Throw "Transaction already finalized").
Proof.
  unfold isFinalized, captureNewTimeline, bind, getThis, throw. by intros ->.
Qed.

Lemma captureNewTimeline_open newId w :
  isFinalized (tx w) = false →
  captureNewTimeline newId w =
    ({| tx := {| capturedStates := capturedStates (tx w);
                 newTimelineIds := newTimelineIds (tx w) ++ [newId];
                 committed := committed (tx w);
                 rolledBack := rolledBack (tx w) |};
        timelines := timelines w;
        trace := trace w |}, Return tt).
Proof.
  unfold isFinalized, captureNewTimeline, bind, getThis, setThis. by intros ->.
Qed.

Lemma commit_finalized w :
  isFinalized (tx w) = true →
  commit w = (w, Throw "Transaction already finalized").
Proof. unfold isFinalized, commit, bind, getThis, throw. by intros ->. Qed.

Lemma commit_open w :
  isFinalized (tx w) = false →
  commit w =
    ({| tx := mark_committed (tx w); timelines := timelines w; trace := trace w |},
     Return tt).
Proof. unfold isFinalized, commit, bind, getThis, setThis. by intros ->. Qed.

Lemma rollback_committed cb w :
  committed (tx w) = true →
  rollback cb w = (w, Throw "Cannot rollback a committed transaction").
Proof. unfold rollback, bind, getThis, throw. by intros ->. Qed.

Lemma rollback_rolledBack cb w :
  committed (tx w) = false →
  rolledBack (tx w) = true →
  rollback cb w =
    ({| tx := tx w; timelines := timelines w; trace := trace w ++ [WarnDuplicateRollback] |},
     Return tt).
Proof. unfold rollback, bind, getThis, emit. by intros -> ->. Qed.

(** The first loop. *)
Lemma deleteNewTimeline_loop cb ids w :
  forEach (deleteNewTimeline cb) ids w =
    ({| tx := tx w;
        timelines := delete_all ids (timelines w);
        trace := trace w ++ deletion_events cb ids (timelines w) |}, Return tt).
Proof.
  revert w. induction ids as [|newId ids IH]; intros w.
  - cbn. unfold ret. by rewrite app_nil_r, world_eta.
  - cbn [forEach delete_all deletion_events].
    unfold bind at 1. unfold deleteNewTimeline at 1.
    unfold bind at 1, getTimeline at 1.
    destruct (timelines w !! newId) as [t|] eqn:Hlook.
    + destruct cb; unfold bind, emit, setRegistry, ret; cbn [tx timelines trace];
        rewrite IH; cbn [tx timelines trace]; by rewrite <- !app_assoc.
    + unfold ret. rewrite IH.
      by rewrite (delete_id (timelines w) newId) by done.
Qed.

(** The second loop. *)
Lemma restoreTimeline_loop entries w :
  forEach restoreTimeline entries w =
    ({| tx := tx w;
        timelines := restore_all entries (timelines w);
        trace := trace w ++ restore_events entries (timelines w) |}, Return tt).
Proof.
  revert w. induction entries as [|[k state] entries IH]; intros w.
  - cbn. unfold ret. by rewrite app_nil_r, world_eta.
  - cbn [forEach restore_all restore_events].
    unfold bind at 1. unfold restoreTimeline at 1.
    unfold bind at 1, getTimeline at 1.
    destruct (timelines w !! k) as [t|] eqn:Hlook.
    + cbn [restore_events_of].
      destruct (load (chess t) (st_fen state)) as [chess' loaded] eqn:Hload.
      assert (alter (restored state) k (timelines w) =
              alter (set_snapshots (deepCloneSnapshots (st_snapshots state))) k
                (alter (set_moveHistory (deepCloneMoveHistory (st_moveHistory state))) k
                   (alter (set_chess chess') k (timelines w)))) as Halter.
      { rewrite !alter_alter_eq. apply alter_ext.
        intros t' Ht'. rewrite Hlook in Ht'. injection Ht' as <-.
        unfold restored. by rewrite Hload. }
      destruct loaded; unfold bind, emit, updateTimeline, setRegistry, ret;
        cbn [tx timelines trace fst snd];
        rewrite IH; cbn [tx timelines trace]; rewrite <- Halter;
        by rewrite <- !app_assoc.
    + cbn [restore_events_of]. unfold emit. rewrite IH. cbn [tx timelines trace].
      rewrite <- app_assoc.
      assert (alter (restored state) k (timelines w) = timelines w) as ->; [|done].
      apply map_eq. intros k'. rewrite lookup_alter.
      case_decide; [subst; by rewrite Hlook | done].
Qed.

(** [rollback] on an open transaction, as one function of the world. *)
Lemma rollback_open cb w :
  isFinalized (tx w) = false →
  rollback cb w =
    ({| tx := mark_rolledBack (tx w);
        timelines := restore_all (capturedStates (tx w))
                       (delete_all (newTimelineIds (tx w)) (timelines w));
        trace := trace w ++
                 deletion_events cb (newTimelineIds (tx w)) (timelines w) ++
                 restore_events (capturedStates (tx w))
                   (delete_all (newTimelineIds (tx w)) (timelines w)) |},
     Return tt).
Proof.
  intros [Hc Hr]%isFinalized_false.
  unfold rollback. unfold bind at 1, getThis at 1. rewrite Hc, Hr.
  unfold bind at 1. rewrite deleteNewTimeline_loop.
  unfold bind at 1. rewrite restoreTimeline_loop.
  unfold setThis, mark_rolledBack. cbn [tx timelines trace].
  by rewrite <- app_assoc, Hc.
Qed.
End MethodFacts.

(** ** The two loops of [rollback] *)

Section LoopFacts.
Context {C : Type} `{!ChessInstance C}.
Implicit Types (reg : gmap Z (TimelineData C)) (ids : list Z).

Lemma delete_all_lookup ids reg k :
  delete_all ids reg !! k = delete_entry ids k (reg !! k).
Proof.
  unfold delete_entry. revert reg.
  induction ids as [|newId ids IH]; intros reg; cbn [delete_all].
  - rewrite decide_False; [done | apply not_elem_of_nil].
  - rewrite IH. destruct (decide (k = newId)) as [->|Hne].
    + rewrite lookup_delete_eq, (decide_True (P := newId ∈ newId :: ids)).
      * by case_decide.
      * apply list_elem_of_here.
    + rewrite lookup_delete_ne by done.
      destruct (decide (k ∈ ids)) as [Hin|Hnin].
      * rewrite decide_True; [done | by apply list_elem_of_further].
      * rewrite decide_False; [done|].
        rewrite not_elem_of_cons. done.
Qed.

Lemma restore_all_lookup (entries : JsMap TimelineState) reg k :
  NoDup (Map_keys entries) →
  restore_all entries reg !! k = restore_entry entries k (reg !! k).
Proof.
  unfold restore_entry, Map_keys. revert reg.
  induction entries as [|[k' state] entries IH]; intros reg Hnd; [done|].
  cbn in Hnd. apply NoDup_cons in Hnd as [Hk' Hnd].
  cbn [restore_all Map_get]. rewrite IH by done.
  destruct (decide (k' = k)) as [->|Hne].
  - apply (Map_get_None (V := TimelineState)) in Hk'. rewrite Hk'.
    by rewrite lookup_alter_eq.
  - by rewrite lookup_alter_ne.
Qed.

Lemma deletion_events_Forall cb ids reg :
  Forall (fun e => is_deletion_event e = true) (deletion_events cb ids reg).
Proof.
  revert reg. induction ids as [|newId ids IH]; intros reg; cbn; [constructor|].
  destruct (reg !! newId); [|apply IH].
  destruct cb; cbn; repeat (constructor; [done|]); apply IH.
Qed.

Lemma restore_events_Forall (entries : JsMap TimelineState) reg :
  Forall (fun e => is_restore_event e = true) (restore_events entries reg).
Proof.
  revert reg. induction entries as [|[k state] entries IH]; intros reg; cbn; [constructor|].
  apply Forall_app. split; [|apply IH].
  unfold restore_events_of. destruct (reg !! k) as [t|]; [|by repeat constructor].
  destruct (load (chess t) (st_fen state)).2; cbn; by repeat constructor.
Qed.

(** An id that is not in the registry gets no callback and no deletion. *)
Lemma deletion_events_absent cb ids reg k :
  reg !! k = None →
  (CallOnDelete k ∉ deletion_events cb ids reg) ∧
  (DeleteTimeline k ∉ deletion_events cb ids reg).
Proof.
  revert reg. induction ids as [|newId ids IH]; intros reg Hk; cbn.
  - split; apply not_elem_of_nil.
  - destruct (reg !! newId) as [t|] eqn:Hnew; [|by apply IH].
    assert (newId ≠ k) as Hne by (intros ->; congruence).
    destruct (IH (delete newId reg) ltac:(by rewrite lookup_delete_ne)) as [IH1 IH2].
    destruct cb; cbn; rewrite ?not_elem_of_cons; repeat split;
      try done; congruence.
Qed.

(** An id that is in the registry and on the list gets the callback (when
    one was passed) immediately followed by the deletion, once. *)
Lemma deletion_events_present cb ids reg k :
  k ∈ ids →
  is_Some (reg !! k) →
  ∃ before after,
    deletion_events cb ids reg =
      before ++ (if cb then [CallOnDelete k] else []) ++ DeleteTimeline k :: after ∧
    (CallOnDelete k ∉ before) ∧ (DeleteTimeline k ∉ before) ∧
    (CallOnDelete k ∉ after) ∧ (DeleteTimeline k ∉ after).
Proof.
  revert reg. induction ids as [|newId ids IH]; intros reg Hin Hk.
  - by apply elem_of_nil in Hin.
  - cbn [deletion_events].
    destruct (decide (newId = k)) as [->|Hne].
    + destruct Hk as [t Hk]. rewrite Hk.
      destruct (deletion_events_absent cb ids (delete k reg) k) as [H1 H2];
        [apply lookup_delete_eq|].
      exists [], (deletion_events cb ids (delete k reg)).
      repeat split; try done; apply not_elem_of_nil.
    + apply elem_of_cons in Hin as [->|Hin]; [done|].
      destruct (reg !! newId) as [t|] eqn:Hnew.
      * destruct (IH (delete newId reg) Hin) as (before & after & Heq & ? & ? & ? & ?);
          [by rewrite lookup_delete_ne|].
        exists ((if cb then [CallOnDelete newId] else []) ++ DeleteTimeline newId :: before),
          after.
        rewrite Heq. split; [by destruct cb|].
        destruct cb; cbn; rewrite ?not_elem_of_cons; repeat split;
          try done; congruence.
      * by apply IH.
Qed.
End LoopFacts.

(** ** The state machine of a transaction *)

Section StateMachineFacts.
Context {C : Type} `{!ChessInstance C}.
Implicit Types (w : World C) (this : Transaction).

Lemma run_tx_step (c : call) w : tx_step (tx w) (tx (run c w).1).
Proof.
  destruct (isFinalized (tx w)) eqn:Hfin.
  - destruct c as [timeline label|newId| |cb]; cbn [run].
    + rewrite captureTimeline_finalized by done. constructor.
    + rewrite captureNewTimeline_finalized by done. constructor.
    + rewrite commit_finalized by done. constructor.
    + destruct (committed (tx w)) eqn:Hc.
      * rewrite rollback_committed by done. constructor.
      * unfold isFinalized in Hfin. rewrite Hc in Hfin. cbn in Hfin.
        rewrite rollback_rolledBack by done. constructor.
  - destruct c as [timeline label|newId| |cb]; cbn [run].
    + destruct (Map_has (capturedStates (tx w)) (id timeline)) eqn:Hhas.
      * rewrite captureTimeline_again by done. constructor.
      * rewrite captureTimeline_first by done.
        apply (tx_capture (tx w) timeline label); [done|].
        by apply Map_has_false.
    + rewrite captureNewTimeline_open by done. by apply (tx_captureNew (C := C)).
    + rewrite commit_open by done. by apply (tx_commit (C := C)).
    + rewrite rollback_open by done. by apply (tx_rollback (C := C)).
Qed.

Lemma step_tx_step w w' : step w w' → tx_step (tx w) (tx w').
Proof. destruct 1; [apply run_tx_step | constructor]. Qed.

Lemma tx_inv_new : tx_inv newTransaction.
Proof. repeat split; cbn; constructor. Qed.

Lemma tx_step_inv this this' : tx_step (C := C) this this' → tx_inv this → tx_inv this'.
Proof.
  intros Hstep (Hnd & Hok & Hflags).
  destruct Hstep as [this|this timeline label Hfin Hget|this newId Hfin|this Hfin|this Hfin];
    try done.
  - repeat split; cbn [capturedStates committed rolledBack add_captured]; [| |done].
    + unfold Map_keys in *. rewrite fmap_app. cbn.
      apply NoDup_app. repeat split; [done| |apply NoDup_singleton].
      intros k Hk Hk'. apply list_elem_of_singleton in Hk' as ->.
      by apply (Map_get_None (V := TimelineState)) in Hget.
    + apply Forall_app. split; [done|]. constructor; [|constructor].
      split; [done|]. cbn. apply deepCloneSnapshots_idemp.
  - apply isFinalized_false in Hfin as [_ Hr].
    repeat split; cbn; [done..|]. rewrite Hr. done.
  - apply isFinalized_false in Hfin as [Hc _].
    repeat split; cbn; [done..|]. rewrite Hc. done.
Qed.

Lemma reachable_tx_inv w : reachable w → tx_inv (tx w).
Proof.
  intros [reg Hsteps].
  assert (tx_inv (tx (initial reg))) as Hinit by apply tx_inv_new.
  revert Hsteps Hinit. generalize (initial reg).
  intros w0 Hsteps Hinit. induction Hsteps as [w1|w1 w2 w3 Hstep _ IH]; [done|].
  apply IH. eapply tx_step_inv; [by apply step_tx_step | done].
Qed.

(** A captured state stays what it was at the first capture. *)
Lemma tx_step_captured this this' k state :
  tx_step (C := C) this this' →
  Map_get (capturedStates this) k = Some state →
  Map_get (capturedStates this') k = Some state.
Proof.
  intros Hstep Hget.
  destruct Hstep as [this|this timeline label Hfin Hnone|this newId Hfin|this Hfin|this Hfin];
    try done.
  cbn [capturedStates add_captured]. by rewrite Map_get_snoc, Hget.
Qed.

Lemma steps_captured w w' k state :
  rtc step w w' →
  Map_get (capturedStates (tx w)) k = Some state →
  Map_get (capturedStates (tx w')) k = Some state.
Proof.
  induction 1 as [w|w w1 w2 Hstep _ IH]; [done|].
  intros Hget. apply IH. eapply tx_step_captured; [by apply step_tx_step | done].
Qed.

(** Finalization is terminal. *)
Lemma tx_step_finalized this this' :
  tx_step (C := C) this this' → isFinalized this = true → this' = this.
Proof. destruct 1; congruence. Qed.

Lemma steps_finalized w w' :
  rtc step w w' → isFinalized (tx w) = true → tx w' = tx w.
Proof.
  induction 1 as [w|w w1 w2 Hstep _ IH]; [done|].
  intros Hfin.
  pose proof (tx_step_finalized _ _ (step_tx_step _ _ Hstep) Hfin) as Heq.
  rewrite IH; [done|]. by rewrite Heq.
Qed.

(** A recorded id stays recorded. *)
Lemma tx_step_newTimelineIds this this' k :
  tx_step (C := C) this this' →
  k ∈ newTimelineIds this → k ∈ newTimelineIds this'.
Proof.
  destruct 1; try done.
  cbn [newTimelineIds add_newTimeline]. intros Hk. apply elem_of_app. by left.
Qed.

Lemma steps_newTimelineIds w w' k :
  rtc step w w' →
  k ∈ newTimelineIds (tx w) → k ∈ newTimelineIds (tx w').
Proof.
  induction 1 as [w|w w1 w2 Hstep _ IH]; [done|].
  intros Hk. apply IH. eapply tx_step_newTimelineIds; [by apply step_tx_step | done].
Qed.

Lemma captureNewTimeline_records newId w :
  isFinalized (tx w) = false →
  newId ∈ newTimelineIds (tx (captureNewTimeline newId w).1).
Proof.
  intros Hfin. rewrite captureNewTimeline_open by done. cbn.
  apply elem_of_app. right. apply list_elem_of_here.
Qed.

Lemma reachable_step w w' : reachable w → step w w' → reachable w'.
Proof. intros [reg Hsteps] Hstep. exists reg. eapply rtc_r; eauto. Qed.

Lemma reachable_steps w w' : reachable w → rtc step w w' → reachable w'.
Proof. intros [reg Hsteps] Hsteps'. exists reg. by etrans. Qed.
End StateMachineFacts.

(** ** Finalization *)

Section Finalization.
Context {C : Type} `{!ChessInstance C}.
Implicit Types (w : World C).

(** C3. Finalization exclusivity.  Once [commit()] has returned, every later
    [rollback()] throws, and once [rollback()] has returned, every later
    [commit()] throws, whatever the client does in between; on an open
    transaction the first call of either order does return. *)
Theorem finalization_exclusive w cb :
  (∀ w1 w1' cb', commit w = (w1, Return tt) → rtc step w1 w1' →
     rollback cb' w1' = (w1', Throw "Cannot rollback a committed transaction")) ∧
  (∀ w2 w2', rollback cb w = (w2, Return tt) → rtc step w2 w2' →
     commit w2' = (w2', Throw "Transaction already finalized")) ∧
  (isFinalized (tx w) = false →
     (∃ w1, commit w = (w1, Return tt)) ∧ (∃ w2, rollback cb w = (w2, Return tt))).
Proof.
  split; [|split].
  - intros w1 w1' cb' Hcommit Hsteps.
    destruct (isFinalized (tx w)) eqn:Hfin.
    { rewrite commit_finalized in Hcommit by done. congruence. }
    rewrite commit_open in Hcommit by done. injection Hcommit as <-.
    apply rollback_committed.
    rewrite (steps_finalized _ _ Hsteps); done.
  - intros w2 w2' Hrollback Hsteps.
    apply commit_finalized.
    assert (isFinalized (tx w2) = true) as Hfin2.
    { destruct (committed (tx w)) eqn:Hc.
      { rewrite rollback_committed in Hrollback by done. congruence. }
      destruct (rolledBack (tx w)) eqn:Hr.
      - rewrite rollback_rolledBack in Hrollback by done. injection Hrollback as <-.
        unfold isFinalized. cbn. rewrite Hr. apply orb_true_r.
      - rewrite rollback_open in Hrollback by (by apply isFinalized_false).
        injection Hrollback as <-. unfold isFinalized. cbn. apply orb_true_r. }
    rewrite (steps_finalized _ _ Hsteps); done.
  - intros Hfin. split.
    + eexists. by apply commit_open.
    + eexists. by apply rollback_open.
Qed.

(** C4, amended.  On a finalized transaction [captureTimeline],
    [captureNewTimeline] and [commit] throw and change nothing; [rollback]
    throws when the transaction was committed, and when it was rolled back it
    returns normally after a warning. *)
Theorem finalized_use w timeline label newId cb :
  isFinalized (tx w) = true →
  captureTimeline timeline label w = (w, Throw "Transaction already finalized") ∧
  captureNewTimeline newId w = (w, Throw "Transaction already finalized") ∧
  commit w = (w, Throw "Transaction already finalized") ∧
  (committed (tx w) = true →
     rollback cb w = (w, Throw "Cannot rollback a committed transaction")) ∧
  (committed (tx w) = false →
     ∃ w', rollback cb w = (w', Return tt) ∧
           tx w' = tx w ∧ timelines w' = timelines w).
Proof.
  intros Hfin. split; [|split; [|split; [|split]]].
  - by apply captureTimeline_finalized.
  - by apply captureNewTimeline_finalized.
  - by apply commit_finalized.
  - apply rollback_committed.
  - intros Hc. unfold isFinalized in Hfin. rewrite Hc in Hfin.
    eexists. split; [by apply rollback_rolledBack | split; reflexivity].
Qed.

(** C6. [rollback] on a transaction already rolled back returns normally,
    leaves the transaction object, the registry and every timeline in it as
    they were, and only adds a warning to the console; so rolling back twice
    leaves the same transaction and registry as rolling back once. *)
Theorem rollback_twice w cb :
  reachable w →
  rolledBack (tx w) = true →
  rollback cb w =
    ({| tx := tx w; timelines := timelines w;
        trace := trace w ++ [WarnDuplicateRollback] |}, Return tt).
Proof.
  intros Hreach Hr. apply rollback_rolledBack; [|done].
  destruct (reachable_tx_inv w Hreach) as (_ & _ & Hflags).
  rewrite Hr, andb_true_r in Hflags. done.
Qed.

(** Rolling back twice leaves the transaction and the registry that rolling
    back once leaves. *)
Lemma rollback_idempotent w cb cb' :
  isFinalized (tx w) = false →
  ∃ w1 w2,
    rollback cb w = (w1, Return tt) ∧
    rollback cb' w1 = (w2, Return tt) ∧
    tx w2 = tx w1 ∧ timelines w2 = timelines w1.
Proof.
  intros Hfin. pose proof Hfin as [Hc Hr]%isFinalized_false.
  eexists _, _. split; [by apply rollback_open|].
  split; [by apply rollback_rolledBack | split; reflexivity].
Qed.

(** C8. [commit] on an open transaction returns normally; the registry, the
    timelines and the trace are as before, and so are the captured states,
    the recorded ids and the rolled-back flag: only [committed] is set. *)
Theorem commit_marks_only w :
  isFinalized (tx w) = false →
  ∃ w', commit w = (w', Return tt) ∧
    timelines w' = timelines w ∧
    trace w' = trace w ∧
    capturedStates (tx w') = capturedStates (tx w) ∧
    newTimelineIds (tx w') = newTimelineIds (tx w) ∧
    rolledBack (tx w') = rolledBack (tx w) ∧
    committed (tx w') = true.
Proof.
  intros Hfin. eexists. split; [by apply commit_open|]. repeat split.
Qed.
End Finalization.

(** ** Capture and restoration *)

Section CaptureRestore.
Context {C : Type} `{!ChessInstance C}.
Implicit Types (w : World C) (t timeline : TimelineData C) (state : TimelineState).

(** After a call of [captureTimeline] on an open transaction the id of the
    timeline is a key of [capturedStates]; the state under it is the one
    taken now if there was none before. *)
Lemma captureTimeline_captured timeline label w :
  isFinalized (tx w) = false →
  Map_get (capturedStates (tx (captureTimeline timeline label w).1)) (id timeline) =
    match Map_get (capturedStates (tx w)) (id timeline) with
    | Some state => Some state
    | None => Some (captured_state timeline label)
    end.
Proof.
  intros Hfin.
  destruct (Map_has (capturedStates (tx w)) (id timeline)) eqn:Hhas.
  - rewrite captureTimeline_again by done. cbn.
    apply Map_has_true in Hhas as [state Hstate]. by rewrite Hstate.
  - rewrite captureTimeline_first by done. cbn.
    apply Map_has_false in Hhas. rewrite Map_get_snoc, Hhas.
    by rewrite decide_True.
Qed.

(** C5. Idempotent capture.  On an open transaction, capturing a timeline
    and then capturing a timeline with the same id again (whatever its
    contents and label) is the same computation as the first capture alone;
    the second capture stays a no-op whatever happens between the two calls,
    and the state captured first is the one that is kept. *)
Theorem captureTimeline_idempotent w t1 label1 t2 label2 :
  isFinalized (tx w) = false →
  id t2 = id t1 →
  (captureTimeline t1 label1 ;; captureTimeline t2 label2) w = captureTimeline t1 label1 w ∧
  (captureTimeline t1 label1 w).2 = Return tt ∧
  (∀ w', rtc step (captureTimeline t1 label1 w).1 w' →
         isFinalized (tx w') = false →
         captureTimeline t2 label2 w' = (w', Return tt) ∧
         Map_get (capturedStates (tx w')) (id t1) =
           Map_get (capturedStates (tx (captureTimeline t1 label1 w).1)) (id t1)).
Proof.
  intros Hfin Hid.
  pose proof (captureTimeline_captured t1 label1 w Hfin) as Hcap.
  assert (∃ w1, captureTimeline t1 label1 w = (w1, Return tt) ∧
                isFinalized (tx w1) = false) as (w1 & Hw1 & Hfin1).
  { destruct (Map_has (capturedStates (tx w)) (id t1)) eqn:Hhas.
    - rewrite captureTimeline_again by done. eauto.
    - rewrite captureTimeline_first by done. eauto. }
  rewrite Hw1 in Hcap |- *. cbn [fst snd] in *.
  assert (is_Some (Map_get (capturedStates (tx w1)) (id t1))) as [state Hstate].
  { rewrite Hcap. destruct (Map_get (capturedStates (tx w)) (id t1)); eauto. }
  assert (∀ w', rtc step w1 w' → isFinalized (tx w') = false →
                captureTimeline t2 label2 w' = (w', Return tt) ∧
                Map_get (capturedStates (tx w')) (id t1) =
                  Map_get (capturedStates (tx w1)) (id t1)) as Hlater.
  { intros w' Hsteps Hfin'.
    pose proof (steps_captured _ _ _ _ Hsteps Hstate) as Hstate'.
    split; [|congruence].
    apply captureTimeline_again; [done|].
    apply Map_has_true. rewrite Hid. eauto. }
  split; [|split; [done|done]].
  unfold bind. rewrite Hw1.
  by destruct (Hlater w1 (rtc_refl _ _) Hfin1) as [-> _].
Qed.

Lemma restore_all_absent (entries : JsMap TimelineState) (reg : gmap Z (TimelineData C)) k :
  reg !! k = None → restore_all entries reg !! k = None.
Proof.
  revert reg. induction entries as [|[k' state] entries IH]; intros reg Hk; [done|].
  cbn [restore_all]. apply IH. rewrite lookup_alter. case_decide; [|done].
  subst. by rewrite Hk.
Qed.

(** The registry after [rollback] on an open transaction that satisfies the
    invariant, entry by entry. *)
Lemma rollback_open_lookup cb w k :
  tx_inv (tx w) →
  isFinalized (tx w) = false →
  timelines (rollback cb w).1 !! k =
    restore_entry (capturedStates (tx w)) k
      (delete_entry (newTimelineIds (tx w)) k (timelines w !! k)).
Proof.
  intros (Hnd & _ & _) Hfin. rewrite rollback_open by done. cbn [fst timelines].
  by rewrite restore_all_lookup, delete_all_lookup.
Qed.

Lemma restored_fields state t :
  chess (restored state t) = (load (chess t) (st_fen state)).1 ∧
  moveHistory (restored state t) = st_moveHistory state ∧
  snapshots (restored state t) = deepCloneSnapshots (st_snapshots state) ∧
  id (restored state t) = id t ∧
  parentId (restored state t) = parentId t ∧
  branchTurn (restored state t) = branchTurn t ∧
  xOffset (restored state t) = xOffset t ∧
  name (restored state t) = name t.
Proof. repeat split; cbn. apply deepCloneMoveHistory_id. Qed.

(** C1, amended.  A timeline [t0] is captured for the first time on an
    open transaction; the client then does anything that leaves the
    transaction open, and calls [rollback] with the timeline still in the
    registry (as [t], in any state) and its id not recorded as a new
    timeline.  Then [rollback] returns, and the timeline in the registry has
    the move history [t0] had, the snapshot list copied from [t0], and the
    engine state obtained by loading the positional string of [t0]; its other
    fields are those of [t].  When the snapshots of [t0] are 8x8 boards and
    loading that string gives back a position that serialises to it, the
    state of the timeline is its state at the capture. *)
Theorem rollback_restores_captured w0 t0 label w2 t cb :
  reachable w0 →
  Map_get (capturedStates (tx w0)) (id t0) = None →
  rtc step (captureTimeline t0 label w0).1 w2 →
  isFinalized (tx w2) = false →
  timelines w2 !! id t0 = Some t →
  id t0 ∉ newTimelineIds (tx w2) →
  ∃ w3 t',
    rollback cb w2 = (w3, Return tt) ∧
    Map_get (capturedStates (tx w2)) (id t0) = Some (captured_state t0 label) ∧
    timelines w3 !! id t0 = Some t' ∧
    chess t' = (load (chess t) (fen (chess t0))).1 ∧
    moveHistory t' = st_moveHistory (captured_state t0 label) ∧
    snapshots t' = st_snapshots (captured_state t0 label) ∧
    moveHistory t' = moveHistory t0 ∧
    snapshots t' = deepCloneSnapshots (snapshots t0) ∧
    (id t', parentId t', branchTurn t', xOffset t', name t') =
      (id t, parentId t, branchTurn t, xOffset t, name t) ∧
    (Forall snapshot_8x8 (snapshots t0) →
     fen (load (chess t) (fen (chess t0))).1 = fen (chess t0) →
     timeline_state t' = timeline_state t0).
Proof.
  intros Hreach Hfirst Hsteps Hfin2 Ht Hnew.
  assert (isFinalized (tx w0) = false) as Hfin0.
  { destruct (isFinalized (tx w0)) eqn:Hfin0; [|done].
    rewrite captureTimeline_finalized in Hsteps by done. cbn in Hsteps.
    rewrite (steps_finalized _ _ Hsteps Hfin0) in Hfin2. congruence. }
  pose proof (captureTimeline_captured t0 label w0 Hfin0) as Hcap.
  rewrite Hfirst in Hcap.
  pose proof (steps_captured _ _ _ _ Hsteps Hcap) as Hcap2.
  assert (reachable w2) as Hreach2.
  { eapply reachable_steps; [|done].
    eapply reachable_step; [done|]. apply (step_call (CaptureTimeline t0 label)). }
  pose proof (rollback_open_lookup cb w2 (id t0) (reachable_tx_inv _ Hreach2) Hfin2) as Hlook.
  rewrite rollback_open in Hlook |- * by done. cbn [fst timelines] in Hlook.
  unfold restore_entry, delete_entry in Hlook.
  rewrite Hcap2, decide_False, Ht in Hlook by done. cbn [fmap option_fmap option_map] in Hlook.
  eexists _, _. split; [done|]. split; [done|]. split; [exact Hlook|].
  destruct (restored_fields (captured_state t0 label) t)
    as (Hchess & Hmh & Hsn & Hid & Hp & Hb & Hx & Hn).
  assert (snapshots (restored (captured_state t0 label) t) =
          deepCloneSnapshots (snapshots t0)) as Hsn'.
  { rewrite Hsn. apply deepCloneSnapshots_idemp. }
  assert (moveHistory (restored (captured_state t0 label) t) = moveHistory t0) as Hmh'.
  { rewrite Hmh. apply deepCloneMoveHistory_id. }
  split; [done|]. split; [done|]. split; [done|]. split; [done|]. split; [done|].
  split; [by rewrite Hid, Hp, Hb, Hx, Hn|].
  intros H8 Hfen. unfold timeline_state.
  rewrite Hchess, Hmh', Hsn'. cbn [st_fen captured_state].
  by rewrite Hfen, deepCloneSnapshots_8x8.
Qed.
End CaptureRestore.

(** ** Counting events *)

Lemma occurrences_app (e : event) (l1 l2 : list event) :
  occurrences e (l1 ++ l2) = (occurrences e l1 + occurrences e l2)%nat.
Proof. unfold occurrences. by rewrite filter_app, length_app. Qed.

Lemma occurrences_cons (e e' : event) (l : list event) :
  occurrences e (e' :: l) =
    ((if decide (e' = e) then 1 else 0) + occurrences e l)%nat.
Proof.
  unfold occurrences. rewrite filter_cons. by destruct (decide (e' = e)).
Qed.

Lemma occurrences_absent (e : event) (l : list event) :
  e ∉ l → occurrences e l = 0%nat.
Proof.
  induction l as [|e' l IH]; [done|].
  rewrite not_elem_of_cons. intros [Hne Hl].
  rewrite occurrences_cons, decide_False by done. by rewrite IH.
Qed.

Lemma restore_events_no_deletion (e : event) (l : list event) :
  is_restore_event e = false →
  Forall (fun e' => is_restore_event e' = true) l →
  e ∉ l.
Proof.
  intros He Hl Hin. rewrite Forall_forall in Hl. apply Hl in Hin. congruence.
Qed.

Section RollbackEvents.
Context {C : Type} `{!ChessInstance C}.
Implicit Types (w : World C) (reg : gmap Z (TimelineData C)).

Lemma restore_events_elem (entries : JsMap TimelineState) reg k state e :
  Map_get entries k = Some state →
  e ∈ restore_events_of k state (reg !! k) →
  e ∈ restore_events entries reg.
Proof.
  revert reg. induction entries as [|[k' state'] entries IH]; intros reg; [done|].
  cbn [Map_get restore_events]. rewrite elem_of_app.
  destruct (decide (k' = k)) as [->|Hne].
  - intros [= ->]. by left.
  - intros Hget He. right. apply IH; [done|]. by rewrite lookup_alter_ne.
Qed.

(** What [rollback] adds to the trace on an open transaction: the events of
    the first loop, then those of the second. *)
Lemma rollback_events cb w :
  isFinalized (tx w) = false →
  ∃ w' deletions restorations,
    rollback cb w = (w', Return tt) ∧
    trace w' = trace w ++ deletions ++ restorations ∧
    Forall (fun e => is_deletion_event e = true) deletions ∧
    Forall (fun e => is_restore_event e = true) restorations ∧
    (∀ k, k ∈ newTimelineIds (tx w) → is_Some (timelines w !! k) →
       ∃ before after,
         deletions =
           before ++ (if cb then [CallOnDelete k] else []) ++ DeleteTimeline k :: after ∧
         (CallOnDelete k ∉ before) ∧ (DeleteTimeline k ∉ before) ∧
         (CallOnDelete k ∉ after) ∧ (DeleteTimeline k ∉ after)) ∧
    (∀ k, timelines w !! k = None →
       (CallOnDelete k ∉ deletions) ∧ (DeleteTimeline k ∉ deletions)) ∧
    (∀ k, k ∈ newTimelineIds (tx w) → timelines w' !! k = None).
Proof.
  intros Hfin. rewrite rollback_open by done.
  eexists _, _, _. split; [done|]. cbn [trace timelines].
  split; [done|]. split; [apply deletion_events_Forall|].
  split; [apply restore_events_Forall|].
  split; [intros k; apply deletion_events_present|].
  split; [intros k; apply deletion_events_absent|].
  intros k Hk. apply restore_all_absent.
  rewrite delete_all_lookup. unfold delete_entry. by rewrite decide_True.
Qed.

(** C2. [rollback] with a deletion callback on an open transaction returns,
    and what it does is a run of deletion events followed by a run of
    restoration events.  For every recorded new id that is in the registry,
    the callback is called with it exactly once and the registry entry is
    deleted exactly once, the deletion coming right after the call; and no
    recorded new id is in the registry afterwards. *)
Theorem rollback_deletes_new_timelines w :
  isFinalized (tx w) = false →
  ∃ w' deletions restorations,
    rollback true w = (w', Return tt) ∧
    trace w' = trace w ++ deletions ++ restorations ∧
    Forall (fun e => is_deletion_event e = true) deletions ∧
    Forall (fun e => is_restore_event e = true) restorations ∧
    (∀ k, k ∈ newTimelineIds (tx w) → is_Some (timelines w !! k) →
       occurrences (CallOnDelete k) (deletions ++ restorations) = 1%nat ∧
       occurrences (DeleteTimeline k) (deletions ++ restorations) = 1%nat ∧
       ∃ before after,
         deletions = before ++ CallOnDelete k :: DeleteTimeline k :: after) ∧
    (∀ k, k ∈ newTimelineIds (tx w) → timelines w' !! k = None).
Proof.
  intros Hfin.
  destruct (rollback_events true w Hfin)
    as (w' & dels & rests & Hrun & Htrace & Hdels & Hrests & Hpresent & _ & Hgone).
  exists w', dels, rests. repeat (split; [done|]). split; [|done].
  intros k Hk Hreg.
  destruct (Hpresent k Hk Hreg) as (before & after & -> & Hb1 & Hb2 & Ha1 & Ha2).
  cbn [app]. rewrite !occurrences_app, !occurrences_cons.
  rewrite (occurrences_absent _ before Hb1), (occurrences_absent _ before Hb2).
  rewrite (occurrences_absent _ after Ha1), (occurrences_absent _ after Ha2).
  rewrite (occurrences_absent (CallOnDelete k) rests),
          (occurrences_absent (DeleteTimeline k) rests)
    by (by apply restore_events_no_deletion).
  repeat case_decide; try congruence.
  split; [done|]. split; [done|]. eauto.
Qed.

(** C10. An id recorded more than once as a new timeline: [rollback] on the
    open transaction returns, calls the deletion callback with this id at
    most once and deletes the registry entry at most once: exactly once each
    (the call only if a callback was passed) when the id is in the registry,
    not at all when it is not; afterwards the id is not in the registry. *)
Theorem rollback_duplicate_new_id w cb k :
  isFinalized (tx w) = false →
  (2 ≤ length (filter (fun newId => newId = k) (newTimelineIds (tx w))))%nat →
  ∃ w' events,
    rollback cb w = (w', Return tt) ∧
    trace w' = trace w ++ events ∧
    (occurrences (CallOnDelete k) events ≤ 1)%nat ∧
    (occurrences (DeleteTimeline k) events ≤ 1)%nat ∧
    (is_Some (timelines w !! k) →
       occurrences (CallOnDelete k) events = (if cb then 1 else 0)%nat ∧
       occurrences (DeleteTimeline k) events = 1%nat) ∧
    (timelines w !! k = None →
       occurrences (CallOnDelete k) events = 0%nat ∧
       occurrences (DeleteTimeline k) events = 0%nat) ∧
    timelines w' !! k = None.
Proof.
  intros Hfin Htwice.
  assert (k ∈ newTimelineIds (tx w)) as Hk.
  { destruct (filter _ (newTimelineIds (tx w))) as [|k' l] eqn:Hf; [cbn in Htwice; lia|].
    assert (k' ∈ filter (fun newId => newId = k) (newTimelineIds (tx w))) as Hin.
    { rewrite Hf. apply list_elem_of_here. }
    apply list_elem_of_filter in Hin as [-> Hin]. done. }
  destruct (rollback_events cb w Hfin)
    as (w' & dels & rests & Hrun & Htrace & Hdels & Hrests & Hpresent & Habsent & Hgone).
  exists w', (dels ++ rests). split; [done|]. split; [done|].
  assert (occurrences (CallOnDelete k) rests = 0%nat ∧
          occurrences (DeleteTimeline k) rests = 0%nat) as [Hr1 Hr2].
  { split; apply occurrences_absent; by apply restore_events_no_deletion. }
  rewrite !occurrences_app, Hr1, Hr2, !Nat.add_0_r.
  assert ((is_Some (timelines w !! k) →
           occurrences (CallOnDelete k) dels = (if cb then 1 else 0)%nat ∧
           occurrences (DeleteTimeline k) dels = 1%nat) ∧
          (timelines w !! k = None →
           occurrences (CallOnDelete k) dels = 0%nat ∧
           occurrences (DeleteTimeline k) dels = 0%nat)) as [Hsome Hnone].
  { split.
    - intros Hreg.
      destruct (Hpresent k Hk Hreg) as (before & after & -> & Hb1 & Hb2 & Ha1 & Ha2).
      rewrite !occurrences_app, !occurrences_cons.
      rewrite (occurrences_absent _ before Hb1), (occurrences_absent _ before Hb2).
      rewrite (occurrences_absent _ after Ha1), (occurrences_absent _ after Ha2).
      destruct cb; cbn [app]; rewrite ?occurrences_app, ?occurrences_cons;
        repeat case_decide; try congruence; cbn; done.
    - intros Hreg. destruct (Habsent k Hreg) as [H1 H2].
      split; by apply occurrences_absent. }
  destruct (timelines w !! k) as [t|] eqn:Hreg.
  - destruct Hsome as [-> ->]; [by eexists|].
    split; [destruct cb; lia|]. split; [lia|]. split; [done|].
    split; [done|]. by apply Hgone.
  - destruct Hnone as [-> ->]; [done|].
    split; [lia|]. split; [lia|]. split; [by intros [? ?]|].
    split; [done|]. by apply Hgone.
Qed.

(** C7. A captured timeline whose positional string the engine refuses to
    load: [rollback] still returns normally, reports the failure on the
    console, and writes the captured move history and snapshot list back into
    that timeline; every captured timeline that is in the registry and not
    recorded as new is restored as well. *)
Theorem rollback_survives_failed_load w cb k state t :
  reachable w →
  isFinalized (tx w) = false →
  Map_get (capturedStates (tx w)) k = Some state →
  timelines w !! k = Some t →
  k ∉ newTimelineIds (tx w) →
  (load (chess t) (st_fen state)).2 = false →
  ∃ w',
    rollback cb w = (w', Return tt) ∧
    ErrorFenRestore k (st_fen state) ∈ trace w' ∧
    (∃ t', timelines w' !! k = Some t' ∧
           moveHistory t' = st_moveHistory state ∧
           snapshots t' = st_snapshots state) ∧
    (∀ k2 state2 t2,
       Map_get (capturedStates (tx w)) k2 = Some state2 →
       timelines w !! k2 = Some t2 →
       k2 ∉ newTimelineIds (tx w) →
       ∃ t2', timelines w' !! k2 = Some t2' ∧
              chess t2' = (load (chess t2) (st_fen state2)).1 ∧
              moveHistory t2' = st_moveHistory state2 ∧
              snapshots t2' = st_snapshots state2).
Proof.
  intros Hreach Hfin Hstate Ht Hnew Hload.
  pose proof (reachable_tx_inv w Hreach) as Hinv.
  assert (∀ k2 state2 t2,
            Map_get (capturedStates (tx w)) k2 = Some state2 →
            timelines w !! k2 = Some t2 →
            k2 ∉ newTimelineIds (tx w) →
            ∃ t2', timelines (rollback cb w).1 !! k2 = Some t2' ∧
                   chess t2' = (load (chess t2) (st_fen state2)).1 ∧
                   moveHistory t2' = st_moveHistory state2 ∧
                   snapshots t2' = st_snapshots state2) as Hall.
  { intros k2 state2 t2 Hstate2 Ht2 Hnew2.
    rewrite rollback_open_lookup by done.
    unfold restore_entry, delete_entry. rewrite Hstate2, decide_False, Ht2 by done.
    eexists. split; [done|].
    destruct (restored_fields state2 t2) as (Hchess & Hmh & Hsn & _).
    split; [done|]. split; [done|]. rewrite Hsn.
    destruct Hinv as (_ & Hok & _). rewrite Forall_forall in Hok.
    apply Map_get_elem_of, Hok in Hstate2. apply Hstate2. }
  destruct (Hall k state t Hstate Ht Hnew) as (t' & Ht' & _ & Hmh & Hsn).
  rewrite rollback_open in Hall, Ht' |- * by done. cbn [fst] in Hall, Ht'.
  eexists. split; [done|]. cbn [trace].
  split; [|split; [by eauto|done]].
  rewrite !elem_of_app. right. right.
  eapply restore_events_elem; [done|].
  rewrite delete_all_lookup. unfold delete_entry. rewrite decide_False, Ht by done.
  unfold restore_events_of. rewrite Hload. cbn.
  apply list_elem_of_further, list_elem_of_here.
Qed.
End RollbackEvents.

(** ** The clone helpers on the heap *)

Module ObjectHeapFacts.
Local Abbreviation value_deepCloneBoard := deepCloneBoard (only parsing).
Local Abbreviation value_deepCloneSnapshot := deepCloneSnapshot (only parsing).
Import ObjectHeap.
Local Open Scope nat_scope.

Lemma mapM_agree {A B} (f g : A → option B) (l : list A) :
  (∀ x, x ∈ l → f x = g x) → mapM f l = mapM g l.
Proof.
  induction l as [|x l IH]; intros Hfg; [done|].
  cbn. rewrite (Hfg x) by apply list_elem_of_here.
  rewrite IH; [done|]. intros y Hy. apply Hfg. by apply list_elem_of_further.
Qed.

Lemma piece_eta (q : Piece) : {| type := type q; color := color q |} = q.
Proof. by destruct q. Qed.

(** *** Structures depend only on the objects they are made of *)

Lemma read_cell_agree (h h' : heap) (v : value) :
  (∀ l, l ∈ value_locs v → h' !! l = h !! l) →
  read_cell h' v = read_cell h v.
Proof.
  intros Hagree. destruct v as [| |l]; [done..|].
  cbn. rewrite (Hagree l); [done|]. apply list_elem_of_here.
Qed.

Lemma row_agree (h h' : heap) (v : value) :
  (∀ l, l ∈ row_locs h v → h' !! l = h !! l) →
  read_row h' v = read_row h v ∧ row_locs h' v = row_locs h v.
Proof.
  intros Hagree. destruct v as [| |l]; [done..|].
  assert (h' !! l = h !! l) as Hl.
  { apply Hagree. unfold row_locs. apply elem_of_app. left. apply list_elem_of_here. }
  unfold row_locs in *. cbn in *. rewrite Hl.
  destruct (h !! l) as [[ty co|cells|f bv]|]; try done.
  split; [|done]. apply mapM_agree. intros cell Hcell.
  apply read_cell_agree. intros lp Hlp. apply Hagree.
  apply list_elem_of_further. apply list_elem_of_bind. eauto.
Qed.

Lemma board_agree (h h' : heap) (v : value) :
  (∀ l, l ∈ board_locs h v → h' !! l = h !! l) →
  read_board h' v = read_board h v ∧ board_locs h' v = board_locs h v.
Proof.
  intros Hagree. destruct v as [| |l]; [done..|].
  assert (h' !! l = h !! l) as Hl.
  { apply Hagree. unfold board_locs. apply elem_of_app. left. apply list_elem_of_here. }
  unfold board_locs in *. cbn in *. rewrite Hl.
  destruct (h !! l) as [[ty co|rows|f bv]|]; try done.
  assert (∀ row, row ∈ rows →
            read_row h' row = read_row h row ∧ row_locs h' row = row_locs h row) as Hrows.
  { intros row Hrow. apply row_agree. intros lr Hlr. apply Hagree.
    apply list_elem_of_further. apply list_elem_of_bind. eauto. }
  split.
  - apply mapM_agree. intros row Hrow. by apply Hrows.
  - f_equal. clear Hagree Hl. induction rows as [|row rows IH]; [done|].
    cbn. rewrite (proj2 (Hrows row ltac:(apply list_elem_of_here))).
    rewrite IH; [done|]. intros row' Hrow'. apply Hrows. by apply list_elem_of_further.
Qed.

(** A structure that reads as a value lies inside the heap. *)
Lemma row_locs_bound (h : heap) (v : value) (row : Row) :
  read_row h v = Some row → ∀ l, l ∈ row_locs h v → l < length h.
Proof.
  destruct v as [| |lr]; [done..|]. unfold row_locs. cbn.
  destruct (h !! lr) as [[ty co|cells|f bv]|] eqn:Hlr; try done.
  intros Hcells%mapM_Some_1 l Hl.
  apply elem_of_cons in Hl as [->|Hl]; [by eapply lookup_lt_Some|].
  apply list_elem_of_bind in Hl as (cell & Hl & Hcell).
  apply list_elem_of_lookup in Hcell as [i Hi].
  destruct (Forall2_lookup_l _ _ _ _ _ Hcells Hi) as (x & _ & Hx).
  destruct cell as [| |lp]; [by apply elem_of_nil in Hl..|].
  apply list_elem_of_singleton in Hl as ->. cbn in Hx.
  destruct (h !! lp) eqn:Hlp; [by eapply lookup_lt_Some | done].
Qed.

Lemma board_locs_bound (h : heap) (v : value) (b : Board) :
  read_board h v = Some b → ∀ l, l ∈ board_locs h v → l < length h.
Proof.
  destruct v as [| |lb]; [done..|]. unfold board_locs. cbn.
  destruct (h !! lb) as [[ty co|rows|f bv]|] eqn:Hlb; try done.
  intros Hrows%mapM_Some_1 l Hl.
  apply elem_of_cons in Hl as [->|Hl]; [by eapply lookup_lt_Some|].
  apply list_elem_of_bind in Hl as (rv & Hl & Hrv).
  apply list_elem_of_lookup in Hrv as [i Hi].
  destruct (Forall2_lookup_l _ _ _ _ _ Hrows Hi) as (row & _ & Hrow).
  by eapply row_locs_bound.
Qed.

(** *** The loops of [deepCloneBoard] *)

Section CloneLoops.
(** The source board lives in [h0] and reads as [b]; the clone array is at
    [lc], allocated after [h0]. *)
Variables (h0 : heap) (board : value) (b : Board) (lc : loc).
Hypothesis Hread : read_board h0 board = Some b.
Hypothesis Hlc : length h0 ≤ lc.

(** [board[r]?.[c]] on any heap that preserves the source. *)
Lemma source_cell (h : heap) (r c : nat) :
  preserves h0 h →
  ∃ row p,
    array_get board r h = Some (row, h) ∧
    array_get_opt row c h = Some (p, h) ∧
    cell_matches h p (board_at b r c).
Proof.
  intros Hpres. destruct board as [| |lb]; [done..|]. cbn in Hread.
  destruct (h0 !! lb) as [[ty co|rows|f bv]|] eqn:Hlb; try done.
  apply mapM_Some_1 in Hread.
  assert (∀ l elems i, h0 !! l = Some (ArrayObj elems) →
            array_get (Ref l) i h = Some (default Undefined (elems !! i), h)) as Hget.
  { intros l elems i Hl. unfold array_get, hbind, deref.
    by rewrite (Hpres _ _ Hl). }
  rewrite (Hget _ _ r Hlb). unfold board_at.
  destruct (rows !! r) as [rv|] eqn:Hrv.
  - destruct (Forall2_lookup_l _ _ _ _ _ Hread Hrv) as (row & Hrow & Hrr).
    rewrite Hrow. cbn.
    destruct rv as [| |lr]; [done..|]. cbn in Hrr.
    destruct (h0 !! lr) as [[ty co|cells|f bv]|] eqn:Hlr; try done.
    apply mapM_Some_1 in Hrr.
    eexists _, _. split; [done|].
    unfold array_get_opt. rewrite (Hget _ _ c Hlr).
    split; [done|].
    destruct (cells !! c) as [cv|] eqn:Hcv.
    + destruct (Forall2_lookup_l _ _ _ _ _ Hrr Hcv) as (x & Hx & Hcx).
      rewrite Hx. cbn.
      destruct cv as [| |lp]; [done| |].
      * cbn in Hcx. by injection Hcx as <-.
      * cbn in Hcx.
        destruct (h0 !! lp) as [[ty co|?|? ?]|] eqn:Hlp; try done.
        injection Hcx as <-. cbn. eauto.
    + assert (row !! c = None) as ->; [|done].
      apply lookup_ge_None. rewrite <- (Forall2_length _ _ _ Hrr).
      by apply lookup_ge_None.
  - assert (b !! r = None) as ->.
    { apply lookup_ge_None. rewrite <- (Forall2_length _ _ _ Hread).
      by apply lookup_ge_None. }
    cbn. eexists _, _. split; [done|]. split; done.
Qed.

Lemma clone_piece_spec (h : heap) (p : value) (x : option (option Piece)) :
  cell_matches h p x →
  clone_piece p h =
    Some (cloned_cell_value h (clone_cell x), cloned_cell_heap h (clone_cell x)).
Proof.
  destruct x as [[q|]|]; cbn.
  - intros (l & -> & Hl). cbn. unfold hbind, deref. by rewrite Hl.
  - by intros ->.
  - by intros ->.
Qed.

Lemma cloned_cell_heap_length (h : heap) (x : option Piece) :
  length h ≤ length (cloned_cell_heap h x).
Proof. destruct x; cbn; rewrite ?length_app; lia. Qed.

Lemma cloned_cell_heap_lookup (h : heap) (x : option Piece) (l : loc) :
  l < length h → cloned_cell_heap h x !! l = h !! l.
Proof. intros Hl. destruct x; cbn; [by apply lookup_app_l | done]. Qed.

(** One turn of the inner loop, when the row under construction has the
    cells of the columns before [c]. *)
Lemma clone_cell_at_spec (h : heap) (r c : nat) (lr : loc)
    (crows cells : list value) :
  preserves h0 h →
  h !! lc = Some (ArrayObj crows) →
  crows !! r = Some (Ref lr) →
  h !! lr = Some (ArrayObj cells) →
  length cells = c →
  clone_cell_at board (Ref lc) r c h =
    Some (tt, <[lr := ArrayObj
                 (cells ++ [cloned_cell_value h (clone_cell (board_at b r c))])]>
                (cloned_cell_heap h (clone_cell (board_at b r c)))).
Proof.
  intros Hpres Hclone Hcrow Hrow Hlen.
  destruct (source_cell h r c Hpres) as (row & p & Hget & Hopt & Hmatch).
  unfold clone_cell_at. unfold hbind at 1. rewrite Hget.
  unfold hbind at 1. rewrite Hopt.
  unfold hbind at 1. unfold array_get, hbind, deref. rewrite Hclone. cbn.
  rewrite Hcrow. cbn.
  rewrite (clone_piece_spec h p _ Hmatch).
  unfold array_set.
  rewrite cloned_cell_heap_lookup by (by eapply lookup_lt_Some).
  rewrite Hrow. unfold array_store.
  rewrite decide_False by lia. by rewrite Hlen, Nat.sub_diag.
Qed.

(** The inner loop from column [c] on: the row array gets one cell per
    column, each reading as the clone of the source cell and made of a
    fresh object; nothing else in the heap changes. *)
Lemma clone_cells_loop (r : nat) (lr : loc) (crows : list value) (n : nat) :
  crows !! r = Some (Ref lr) →
  length h0 ≤ lr →
  lr ≠ lc →
  ∀ (c : nat) (h : heap) (cells : list value),
    preserves h0 h →
    h !! lc = Some (ArrayObj crows) →
    h !! lr = Some (ArrayObj cells) →
    length cells = c →
    ∃ h' cells',
      hforEach (clone_cell_at board (Ref lc) r) (seq c n) h = Some (tt, h') ∧
      length h ≤ length h' ∧
      (∀ l, l < length h → l ≠ lr → h' !! l = h !! l) ∧
      h' !! lr = Some (ArrayObj (cells ++ cells')) ∧
      Forall2 (fun v c' =>
                 read_cell h' v = Some (clone_cell (board_at b r c')) ∧
                 allocated_between h h' (value_locs v))
              cells' (seq c n).
Proof.
  intros Hcrow Hlr Hne. induction n as [|n IH]; intros c h cells Hpres Hclone Hrow Hlen.
  - exists h, []. cbn. rewrite app_nil_r. repeat split; done.
  - cbn [seq hforEach]. unfold hbind at 1.
    rewrite (clone_cell_at_spec h r c lr crows cells) by done.
    set (x := clone_cell (board_at b r c)).
    set (hp := cloned_cell_heap h x).
    set (v := cloned_cell_value h x).
    set (h1 := <[lr := ArrayObj (cells ++ [v])]> hp).
    assert (lr < length h) as Hlr_lt by (by eapply lookup_lt_Some).
    assert (length h ≤ length hp) as Hhp by apply cloned_cell_heap_length.
    assert (length h1 = length hp) as Hh1 by apply length_insert.
    assert (∀ l, l < length h → l ≠ lr → h1 !! l = h !! l) as Hframe1.
    { intros l Hl Hllr. unfold h1. rewrite list_lookup_insert_ne by done.
      by apply cloned_cell_heap_lookup. }
    assert (h1 !! lr = Some (ArrayObj (cells ++ [v]))) as Hrow1.
    { unfold h1. apply list_lookup_insert_eq. lia. }
    destruct (IH (S c) h1 (cells ++ [v])) as (h' & cells' & Hrun & Hlen' & Hframe & Hrow' & Hcells).
    { intros l o Hl. rewrite Hframe1; [by apply Hpres| |].
      - apply Hpres in Hl. by eapply lookup_lt_Some.
      - apply lookup_lt_Some in Hl. lia. }
    { rewrite Hframe1; [done| |done]. by eapply lookup_lt_Some. }
    { done. }
    { rewrite length_app. cbn. lia. }
    exists h', (v :: cells'). split; [done|]. split; [lia|]. split; [|split].
    + intros l Hl Hllr. rewrite Hframe by (done || lia). by apply Hframe1.
    + by rewrite <- app_assoc in Hrow'.
    + constructor.
      * unfold v, allocated_between. destruct x as [q|] eqn:Hx; cbn.
        -- assert (h' !! length h = Some (PieceObj (type q) (color q))) as ->.
           { rewrite Hframe; [|unfold hp in *; cbn in *; rewrite length_app in *; cbn in *; lia|lia].
             unfold h1. rewrite list_lookup_insert_ne by lia.
             unfold hp. cbn. apply list_lookup_middle. reflexivity. }
           rewrite piece_eta. split; [unfold x in Hx; by rewrite Hx|].
           intros l ->%list_elem_of_singleton.
           unfold hp in *. cbn in *. rewrite length_app in *. cbn in *. lia.
        -- split; [unfold x in Hx; by rewrite Hx|].
           intros l Hl. by apply elem_of_nil in Hl.
      * eapply Forall2_impl; [exact Hcells|].
        intros v' c' [Hv' Halloc]. split; [done|].
        intros l Hl. specialize (Halloc l Hl). lia.
Qed.

(** One turn of the outer loop, when the clone array has the rows before
    [r]: it gets a fresh row that reads as the clone of row [r]. *)
Lemma clone_row_at_spec (r : nat) (h : heap) (crows : list value) :
  preserves h0 h →
  h !! lc = Some (ArrayObj crows) →
  length crows = r →
  ∃ h',
    clone_row_at board (Ref lc) r h = Some (tt, h') ∧
    length h ≤ length h' ∧
    (∀ l, l < length h → l ≠ lc → h' !! l = h !! l) ∧
    h' !! lc = Some (ArrayObj (crows ++ [Ref (length h)])) ∧
    read_row h' (Ref (length h)) =
      Some (map (fun c => clone_cell (board_at b r c)) (seq 0 8)) ∧
    allocated_between h h' (row_locs h' (Ref (length h))).
Proof.
  intros Hpres Hclone Hlen.
  assert (lc < length h) as Hlc_lt by (by eapply lookup_lt_Some).
  set (lr := length h).
  set (ha := h ++ [ArrayObj []]).
  set (hb := <[lc := ArrayObj (crows ++ [Ref lr])]> ha).
  assert (length hb = S (length h)) as Hhb.
  { unfold hb, ha. rewrite length_insert, length_app. cbn. lia. }
  assert (∀ l, l < length h → l ≠ lc → hb !! l = h !! l) as Hframe_b.
  { intros l Hl Hllc. unfold hb, ha.
    rewrite list_lookup_insert_ne by done. by apply lookup_app_l. }
  assert (hb !! lc = Some (ArrayObj (crows ++ [Ref lr]))) as Hclone_b.
  { unfold hb, ha. apply list_lookup_insert_eq. rewrite length_app. cbn. lia. }
  assert (hb !! lr = Some (ArrayObj [])) as Hrow_b.
  { unfold hb, ha, lr. rewrite list_lookup_insert_ne by lia.
    by apply list_lookup_middle. }
  destruct (clone_cells_loop r lr (crows ++ [Ref lr]) 8) with (c := 0) (h := hb) (cells := @nil value)
    as (h' & cells' & Hrun & Hlen' & Hframe & Hrow' & Hcells).
  { by apply list_lookup_middle. }
  { unfold lr. lia. }
  { unfold lr. lia. }
  { intros l o Hl. rewrite Hframe_b; [by apply Hpres| |].
    - apply Hpres in Hl. by eapply lookup_lt_Some.
    - apply lookup_lt_Some in Hl. lia. }
  { done. }
  { done. }
  { done. }
  cbn [app] in Hrow'.
  exists h'. split.
  { unfold clone_row_at, hbind, alloc, array_set. fold lr. fold ha.
    assert (ha !! lc = Some (ArrayObj crows)) as ->.
    { unfold ha. by rewrite lookup_app_l. }
    unfold array_store. rewrite decide_False by lia.
    rewrite Hlen, Nat.sub_diag. cbn [replicate app]. fold hb. exact Hrun. }
  split; [lia|]. split; [|split; [|split]].
  - intros l Hl Hllc. rewrite Hframe by (unfold lr; lia). by apply Hframe_b.
  - rewrite Hframe by (unfold lr; lia). done.
  - fold lr. unfold read_row. rewrite Hrow'. apply mapM_Some_2.
    apply Forall2_fmap_r. eapply Forall2_impl; [exact Hcells|].
    by intros v c [Hv _].
  - fold lr. intros l Hl. unfold row_locs, array_elems, value_locs at 1 in Hl.
    rewrite Hrow' in Hl.
    apply elem_of_cons in Hl as [->|Hl]; [unfold lr in *; lia|].
    apply list_elem_of_bind in Hl as (cell & Hl & Hcell).
    apply list_elem_of_lookup in Hcell as [i Hi].
    destruct (Forall2_lookup_l _ _ _ _ _ Hcells Hi) as (c & _ & _ & Halloc).
    specialize (Halloc l Hl). lia.
Qed.

(** The outer loop from row [r] on. *)
Lemma clone_rows_loop (n : nat) :
  ∀ (r : nat) (h : heap) (crows : list value),
    preserves h0 h →
    h !! lc = Some (ArrayObj crows) →
    length crows = r →
    ∃ h' rows',
      hforEach (clone_row_at board (Ref lc)) (seq r n) h = Some (tt, h') ∧
      length h ≤ length h' ∧
      (∀ l, l < length h → l ≠ lc → h' !! l = h !! l) ∧
      h' !! lc = Some (ArrayObj (crows ++ rows')) ∧
      Forall2 (fun v r' =>
                 read_row h' v =
                   Some (map (fun c => clone_cell (board_at b r' c)) (seq 0 8)) ∧
                 allocated_between h h' (row_locs h' v))
              rows' (seq r n).
Proof.
  induction n as [|n IH]; intros r h crows Hpres Hclone Hlen.
  - exists h, []. cbn. rewrite app_nil_r. repeat split; done.
  - cbn [seq hforEach]. unfold hbind at 1.
    destruct (clone_row_at_spec r h crows Hpres Hclone Hlen)
      as (h1 & Hrun1 & Hlen1 & Hframe1 & Hclone1 & Hrow1 & Halloc1).
    rewrite Hrun1.
    assert (lc < length h) as Hlc_lt by (by eapply lookup_lt_Some).
    destruct (IH (S r) h1 (crows ++ [Ref (length h)]))
      as (h' & rows' & Hrun & Hlen' & Hframe & Hclone' & Hrows).
    { intros l o Hl. rewrite Hframe1; [by apply Hpres| |].
      - apply Hpres in Hl. by eapply lookup_lt_Some.
      - apply lookup_lt_Some in Hl. lia. }
    { done. }
    { rewrite length_app. cbn. lia. }
    exists h', (Ref (length h) :: rows'). split; [done|]. split; [lia|].
    split; [|split].
    + intros l Hl Hllc. rewrite Hframe by (done || lia). by apply Hframe1.
    + by rewrite <- app_assoc in Hclone'.
    + constructor.
      * destruct (row_agree h1 h' (Ref (length h))) as [-> ->].
        { intros l Hl. specialize (Halloc1 l Hl). apply Hframe; lia. }
        split; [done|]. intros l Hl. specialize (Halloc1 l Hl). lia.
      * eapply Forall2_impl; [exact Hrows|].
        intros v r' [Hv Halloc]. split; [done|].
        intros l Hl. specialize (Halloc l Hl). lia.
Qed.
End CloneLoops.

(** *** [deepCloneBoard] and [deepCloneSnapshot] on the heap *)

Lemma preserves_app (h new : heap) : preserves h (h ++ new).
Proof.
  intros l o Hl. rewrite lookup_app_l; [done|]. by eapply lookup_lt_Some.
Qed.

(** The heap version computes, on the heap, what the function on values
    computes; it leaves the objects it was given as they were, and every
    object of its result is new. *)
Lemma deepCloneBoard_heap (h : heap) (board : value) (b : Board) :
  read_board h board = Some b →
  ∃ h',
    deepCloneBoard board h = Some (Ref (length h), h') ∧
    read_board h' (Ref (length h)) = Some (value_deepCloneBoard b) ∧
    preserves h h' ∧
    allocated_between h h' (board_locs h' (Ref (length h))).
Proof.
  intros Hread.
  set (lc := length h).
  set (ha := h ++ [ArrayObj []]).
  destruct (clone_rows_loop h board b lc Hread (Nat.le_refl _) 8 0 ha [])
    as (h' & rows' & Hrun & Hlen' & Hframe & Hclone' & Hrows).
  { apply preserves_app. }
  { unfold ha, lc. by apply list_lookup_middle. }
  { done. }
  cbn [app] in Hclone'.
  assert (length ha = S (length h)) as Hha.
  { unfold ha. rewrite length_app. cbn. lia. }
  exists h'. split; [|split; [|split]].
  - unfold deepCloneBoard, hbind, alloc. fold lc. fold ha. by rewrite Hrun.
  - unfold read_board. rewrite Hclone'. apply mapM_Some_2.
    unfold value_deepCloneBoard. apply Forall2_fmap_r.
    eapply Forall2_impl; [exact Hrows|]. by intros v r [Hv _].
  - intros l o Hl. rewrite Hframe.
    + by apply (preserves_app h [ArrayObj []]).
    + apply lookup_lt_Some in Hl. lia.
    + apply lookup_lt_Some in Hl. unfold lc. lia.
  - intros l Hl. unfold board_locs, array_elems, value_locs at 1 in Hl.
    rewrite Hclone' in Hl.
    apply elem_of_cons in Hl as [->|Hl]; [unfold lc in *; lia|].
    apply list_elem_of_bind in Hl as (rv & Hl & Hrv).
    apply list_elem_of_lookup in Hrv as [i Hi].
    destruct (Forall2_lookup_l _ _ _ _ _ Hrows Hi) as (r & _ & _ & Halloc).
    specialize (Halloc l Hl). lia.
Qed.

Lemma deepCloneSnapshot_heap (h : heap) (snapshot : value) (s : AnySnapshot) :
  read_snapshot h snapshot = Some s →
  ∃ snapshot' h',
    deepCloneSnapshot snapshot h = Some (snapshot', h') ∧
    read_snapshot h' snapshot' = Some (value_deepCloneSnapshot s) ∧
    preserves h h' ∧
    allocated_between h h' (snapshot_locs h' snapshot').
Proof.
  intros Hread. destruct snapshot as [| |ls]; [done..|].
  cbn in Hread.
  destruct (h !! ls) as [[ty co|rows|f bv]|] eqn:Hls; try done.
  - destruct (mapM (read_row h) rows) as [b|] eqn:Hrows; [|done].
    injection Hread as <-.
    destruct (deepCloneBoard_heap h (Ref ls) b) as (h' & Hrun & Hread' & Hpres & Halloc).
    { cbn. by rewrite Hls. }
    exists (Ref (length h)), h'. split; [|split; [|split]].
    + unfold deepCloneSnapshot, hbind, deref. by rewrite Hls.
    + unfold read_board in Hread'. unfold read_snapshot.
      destruct (h' !! length h) as [[ty co|rows'|f bv]|]; try done.
      by rewrite Hread'.
    + done.
    + intros l Hl. apply Halloc. unfold snapshot_locs in Hl.
      unfold read_board in Hread'.
      by destruct (h' !! length h) as [[ty co|rows'|f bv]|].
  - destruct (read_board h bv) as [b|] eqn:Hb; [|done].
    injection Hread as <-.
    destruct (deepCloneBoard_heap h bv b Hb) as (h1 & Hrun & Hread1 & Hpres & Halloc).
    set (h' := h1 ++ [SnapshotObj f (Ref (length h))]).
    assert (length h < length h1) as Hlt.
    { apply (Halloc (length h)). unfold board_locs. apply elem_of_app. left.
      apply list_elem_of_here. }
    destruct (board_agree h1 h' (Ref (length h))) as [Hread' Hlocs'].
    { intros l Hl. specialize (Halloc l Hl). unfold h'. apply lookup_app_l. lia. }
    assert (h' !! length h1 = Some (SnapshotObj f (Ref (length h)))) as Hsnap.
    { unfold h'. by apply list_lookup_middle. }
    exists (Ref (length h1)), h'. split; [|split; [|split]].
    + unfold deepCloneSnapshot, hbind, deref. rewrite Hls.
      cbn [mbind option_bind]. rewrite Hrun. done.
    + unfold read_snapshot. rewrite Hsnap, Hread', Hread1. done.
    + intros l o Hl. apply preserves_app. by apply Hpres.
    + intros l Hl. unfold snapshot_locs in Hl. rewrite Hsnap, Hlocs' in Hl.
      assert (length h' = S (length h1)) as Hlen'.
      { unfold h'. rewrite length_app. cbn. lia. }
      apply elem_of_cons in Hl as [->|Hl]; [lia|].
      specialize (Halloc l Hl). lia.
Qed.

Lemma snapshot_locs_bound (h : heap) (v : value) (s : AnySnapshot) :
  read_snapshot h v = Some s → ∀ l, l ∈ snapshot_locs h v → l < length h.
Proof.
  destruct v as [| |ls]; [done..|]. unfold read_snapshot, snapshot_locs.
  destruct (h !! ls) as [[ty co|rows|f bv]|] eqn:Hls; try done.
  - destruct (mapM (read_row h) rows) as [b|] eqn:Hrows; [|done].
    intros _. apply (board_locs_bound h (Ref ls) b). unfold read_board. by rewrite Hls.
  - destruct (read_board h bv) as [b|] eqn:Hb; [|done].
    intros _ l Hl. apply elem_of_cons in Hl as [->|Hl]; [by eapply lookup_lt_Some|].
    by eapply board_locs_bound.
Qed.

(** The format of a snapshot is part of the value it reads as: a bare board
    is an array object, a [{ fen, board }] snapshot is a snapshot object. *)
Lemma read_snapshot_format (h : heap) (v : value) (s : AnySnapshot) :
  read_snapshot h v = Some s →
  match s with
  | BareBoard _ => ∃ l rows, v = Ref l ∧ h !! l = Some (ArrayObj rows)
  | FenBoard f _ => ∃ l bv, v = Ref l ∧ h !! l = Some (SnapshotObj f bv)
  end.
Proof.
  destruct v as [| |l]; [done..|]. unfold read_snapshot.
  destruct (h !! l) as [[ty co|rows|f bv]|] eqn:Hl; try done.
  - destruct (mapM (read_row h) rows); [|done]. intros [= <-]. eauto.
  - destruct (read_board h bv); [|done]. intros [= <-]. eauto.
Qed.

(** C9. A snapshot in either format whose board is 8x8: the clone is a
    snapshot in the same format that reads as the same value; the objects of
    the input are untouched; the snapshot object, the board array, every row
    array and every piece object of the clone are newly allocated, so the
    clone has no object in common with the input.  On values, the clone
    function of the transaction is the identity on such a snapshot. *)
Theorem deepCloneSnapshot_fresh_copy (h : heap) (snapshot : value) (s : AnySnapshot) :
  read_snapshot h snapshot = Some s →
  snapshot_8x8 s →
  ∃ snapshot' h',
    deepCloneSnapshot snapshot h = Some (snapshot', h') ∧
    read_snapshot h' snapshot' = Some s ∧
    value_deepCloneSnapshot s = s ∧
    preserves h h' ∧
    allocated_between h h' (snapshot_locs h' snapshot') ∧
    (∀ l, l ∈ snapshot_locs h' snapshot' → l ∉ snapshot_locs h snapshot).
Proof.
  intros Hread H8.
  destruct (deepCloneSnapshot_heap h snapshot s Hread)
    as (snapshot' & h' & Hrun & Hread' & Hpres & Halloc).
  pose proof (deepCloneSnapshot_8x8 s H8) as Hid.
  rewrite Hid in Hread'.
  exists snapshot', h'. repeat (split; [done|]).
  intros l Hl Hl'. specialize (Halloc l Hl).
  pose proof (snapshot_locs_bound h snapshot s Hread l Hl'). lia.
Qed.
End ObjectHeapFacts.

(** ** The statements on the example game *)

Section Witnesses.
Import Example.

Lemma w_start_reachable : reachable w_start.
Proof. exists {[ 0%Z := main_e4 ]}. apply rtc_refl. Defined.

Lemma w_captured_reachable : reachable w_captured.
Proof.
  exists {[ 0%Z := main_e4 ]}.
  apply rtc_once. apply (step_call (CaptureTimeline main_e4 "source")).
Defined.

Lemma w_moved_reachable : reachable w_moved.
Proof.
  destruct w_captured_reachable as [reg Hsteps]. exists reg.
  eapply rtc_r; [exact Hsteps|]. apply step_client.
Defined.

Lemma w_branched_reachable : reachable w_branched.
Proof.
  destruct w_captured_reachable as [reg Hsteps]. exists reg.
  eapply rtc_r; [eapply rtc_r; [exact Hsteps|]|].
  - apply (step_client {[ 0%Z := main_e5; 1%Z := branch ]}).
  - apply (step_call (CaptureNewTimeline 1)).
Defined.

Lemma w_rolledBack_reachable : reachable w_rolledBack.
Proof.
  destruct w_branched_reachable as [reg Hsteps]. exists reg.
  eapply rtc_r; [exact Hsteps|]. apply (step_call (Rollback true)).
Defined.

Lemma w_blank_moved_reachable : reachable w_blank_moved.
Proof.
  exists {[ 0%Z := main_blank ]}.
  eapply rtc_l; [apply (step_call (CaptureTimeline main_blank "source"))|].
  apply rtc_once. apply step_client.
Defined.

(** C1 on the example: the main timeline is captured after 1. e4, the client
    plays 1... e5, and [rollback] brings back the timeline after 1. e4. *)
Lemma rollback_restores_captured_witness :
  reachable w_start ∧
  Map_get (capturedStates (tx w_start)) (id main_e4) = None ∧
  rtc step (captureTimeline main_e4 "source" w_start).1 w_moved ∧
  isFinalized (tx w_moved) = false ∧
  timelines w_moved !! id main_e4 = Some main_e5 ∧
  (id main_e4 ∉ newTimelineIds (tx w_moved)) ∧
  ∃ w3 t',
    rollback true w_moved = (w3, Return tt) ∧
    Map_get (capturedStates (tx w_moved)) (id main_e4) =
      Some (captured_state main_e4 "source") ∧
    timelines w3 !! id main_e4 = Some t' ∧
    chess t' = (load (chess main_e5) (fen (chess main_e4))).1 ∧
    moveHistory t' = st_moveHistory (captured_state main_e4 "source") ∧
    snapshots t' = st_snapshots (captured_state main_e4 "source") ∧
    moveHistory t' = moveHistory main_e4 ∧
    snapshots t' = deepCloneSnapshots (snapshots main_e4) ∧
    (id t', parentId t', branchTurn t', xOffset t', name t') =
      (id main_e5, parentId main_e5, branchTurn main_e5, xOffset main_e5, name main_e5) ∧
    (Forall snapshot_8x8 (snapshots main_e4) →
     fen (load (chess main_e5) (fen (chess main_e4))).1 = fen (chess main_e4) →
     timeline_state t' = timeline_state main_e4).
Proof.
  assert (rtc step (captureTimeline main_e4 "source" w_start).1 w_moved) as Hsteps.
  { apply rtc_once. apply (step_client {[ 0%Z := main_e5 ]} w_captured). }
  assert (id main_e4 ∉ newTimelineIds (tx w_moved)) as Hnew.
  { apply not_elem_of_nil. }
  split; [exact w_start_reachable|]. split; [reflexivity|]. split; [exact Hsteps|].
  split; [reflexivity|]. split; [reflexivity|]. split; [exact Hnew|].
  apply (rollback_restores_captured w_start main_e4 "source" w_moved main_e5 true
           w_start_reachable eq_refl Hsteps eq_refl eq_refl Hnew).
Defined.

(** C1 as first stated fails when the id of a captured timeline is also
    recorded as a new timeline: the timeline is in the registry passed to
    [rollback], and after [rollback] it is not there any more, so nothing of
    it was restored. *)
Lemma rollback_captured_and_new_counterexample :
  reachable w_start ∧
  Map_get (capturedStates (tx w_start)) (id main_e4) = None ∧
  rtc step (captureTimeline main_e4 "source" w_start).1 w_captured_and_new ∧
  isFinalized (tx w_captured_and_new) = false ∧
  Map_get (capturedStates (tx w_captured_and_new)) (id main_e4) =
    Some (captured_state main_e4 "source") ∧
  timelines w_captured_and_new !! id main_e4 = Some main_e5 ∧
  (rollback true w_captured_and_new).2 = Return tt ∧
  timelines (rollback true w_captured_and_new).1 !! id main_e4 = None.
Proof.
  split; [exact w_start_reachable|]. split; [reflexivity|]. split.
  { eapply rtc_l; [apply (step_call (CaptureNewTimeline 0))|].
    apply rtc_once. apply (step_client {[ 0%Z := main_e5 ]}). }
  repeat split; reflexivity.
Qed.

(** C2 on the example: one recorded branch, present in the registry. *)
Lemma rollback_deletes_new_timelines_witness :
  isFinalized (tx w_branched) = false ∧
  ∃ w' deletions restorations,
    rollback true w_branched = (w', Return tt) ∧
    trace w' = trace w_branched ++ deletions ++ restorations ∧
    Forall (fun e => is_deletion_event e = true) deletions ∧
    Forall (fun e => is_restore_event e = true) restorations ∧
    (∀ k, k ∈ newTimelineIds (tx w_branched) → is_Some (timelines w_branched !! k) →
       occurrences (CallOnDelete k) (deletions ++ restorations) = 1%nat ∧
       occurrences (DeleteTimeline k) (deletions ++ restorations) = 1%nat ∧
       ∃ before after,
         deletions = before ++ CallOnDelete k :: DeleteTimeline k :: after) ∧
    (∀ k, k ∈ newTimelineIds (tx w_branched) → timelines w' !! k = None).
Proof.
  split; [reflexivity|].
  apply (rollback_deletes_new_timelines w_branched eq_refl).
Defined.

(** C3 on the example. *)
Lemma finalization_exclusive_witness :
  (∃ w1, commit w_moved = (w1, Return tt) ∧
         rollback true w1 = (w1, Throw "Cannot rollback a committed transaction")) ∧
  (∃ w2, rollback true w_moved = (w2, Return tt) ∧
         commit w2 = (w2, Throw "Transaction already finalized")).
Proof.
  destruct (finalization_exclusive w_moved true) as (Hcr & Hrc & Hopen).
  destruct (Hopen eq_refl) as [[w1 Hw1] [w2 Hw2]].
  split.
  - exists w1. split; [done|]. by apply (Hcr w1 w1 true Hw1), rtc_refl.
  - exists w2. split; [done|]. by apply (Hrc w2 w2 Hw2), rtc_refl.
Defined.

(** C4 on the example, for a committed transaction. *)
Lemma finalized_use_witness :
  isFinalized (tx w_committed) = true ∧
  captureTimeline main_e5 "target" w_committed =
    (w_committed, Throw "Transaction already finalized") ∧
  captureNewTimeline 1 w_committed =
    (w_committed, Throw "Transaction already finalized") ∧
  commit w_committed = (w_committed, Throw "Transaction already finalized") ∧
  (committed (tx w_committed) = true →
     rollback true w_committed =
       (w_committed, Throw "Cannot rollback a committed transaction")) ∧
  (committed (tx w_committed) = false →
     ∃ w', rollback true w_committed = (w', Return tt) ∧
           tx w' = tx w_committed ∧ timelines w' = timelines w_committed).
Proof.
  split; [reflexivity|].
  apply (finalized_use w_committed main_e5 "target" 1 true eq_refl).
Defined.

(** C4 as first stated fails for [rollback] on a transaction that was rolled
    back: the transaction is finalized and the call returns normally. *)
Lemma finalized_rollback_counterexample :
  isFinalized (tx w_rolledBack) = true ∧
  rollback true w_rolledBack =
    ({| tx := tx w_rolledBack; timelines := timelines w_rolledBack;
        trace := trace w_rolledBack ++ [WarnDuplicateRollback] |}, Return tt).
Proof. split; reflexivity. Qed.

(** C5 on the example: the main timeline captured after 1. e4 and again
    after 1... e5. *)
Lemma captureTimeline_idempotent_witness :
  isFinalized (tx w_start) = false ∧
  id main_e5 = id main_e4 ∧
  (captureTimeline main_e4 "source" ;; captureTimeline main_e5 "target") w_start =
    captureTimeline main_e4 "source" w_start ∧
  (captureTimeline main_e4 "source" w_start).2 = Return tt ∧
  (∀ w', rtc step (captureTimeline main_e4 "source" w_start).1 w' →
         isFinalized (tx w') = false →
         captureTimeline main_e5 "target" w' = (w', Return tt) ∧
         Map_get (capturedStates (tx w')) (id main_e4) =
           Map_get (capturedStates (tx (captureTimeline main_e4 "source" w_start).1))
             (id main_e4)).
Proof.
  split; [reflexivity|]. split; [reflexivity|].
  apply (captureTimeline_idempotent w_start main_e4 "source" main_e5 "target"
           eq_refl eq_refl).
Defined.

(** C6 on the example. *)
Lemma rollback_twice_witness :
  reachable w_rolledBack ∧
  rolledBack (tx w_rolledBack) = true ∧
  rollback false w_rolledBack =
    ({| tx := tx w_rolledBack; timelines := timelines w_rolledBack;
        trace := trace w_rolledBack ++ [WarnDuplicateRollback] |}, Return tt).
Proof.
  split; [exact w_rolledBack_reachable|]. split; [reflexivity|].
  apply (rollback_twice w_rolledBack false w_rolledBack_reachable eq_refl).
Defined.

(** C7 on the example: the engine refuses the empty positional string. *)
Lemma rollback_survives_failed_load_witness :
  reachable w_blank_moved ∧
  isFinalized (tx w_blank_moved) = false ∧
  Map_get (capturedStates (tx w_blank_moved)) 0 =
    Some (captured_state main_blank "source") ∧
  timelines w_blank_moved !! 0%Z = Some main_e5 ∧
  (0%Z ∉ newTimelineIds (tx w_blank_moved)) ∧
  (load (chess main_e5) (st_fen (captured_state main_blank "source"))).2 = false ∧
  ∃ w',
    rollback true w_blank_moved = (w', Return tt) ∧
    ErrorFenRestore 0 (st_fen (captured_state main_blank "source")) ∈ trace w' ∧
    (∃ t', timelines w' !! 0%Z = Some t' ∧
           moveHistory t' = st_moveHistory (captured_state main_blank "source") ∧
           snapshots t' = st_snapshots (captured_state main_blank "source")) ∧
    (∀ k2 state2 t2,
       Map_get (capturedStates (tx w_blank_moved)) k2 = Some state2 →
       timelines w_blank_moved !! k2 = Some t2 →
       k2 ∉ newTimelineIds (tx w_blank_moved) →
       ∃ t2', timelines w' !! k2 = Some t2' ∧
              chess t2' = (load (chess t2) (st_fen state2)).1 ∧
              moveHistory t2' = st_moveHistory state2 ∧
              snapshots t2' = st_snapshots state2).
Proof.
  assert (0%Z ∉ newTimelineIds (tx w_blank_moved)) as Hnew.
  { apply not_elem_of_nil. }
  split; [exact w_blank_moved_reachable|]. split; [reflexivity|].
  split; [reflexivity|]. split; [reflexivity|]. split; [exact Hnew|].
  split; [reflexivity|].
  apply (rollback_survives_failed_load w_blank_moved true 0
           (captured_state main_blank "source") main_e5
           w_blank_moved_reachable eq_refl eq_refl eq_refl Hnew eq_refl).
Defined.

(** C8 on the example. *)
Lemma commit_marks_only_witness :
  isFinalized (tx w_moved) = false ∧
  ∃ w', commit w_moved = (w', Return tt) ∧
    timelines w' = timelines w_moved ∧
    trace w' = trace w_moved ∧
    capturedStates (tx w') = capturedStates (tx w_moved) ∧
    newTimelineIds (tx w') = newTimelineIds (tx w_moved) ∧
    rolledBack (tx w') = rolledBack (tx w_moved) ∧
    committed (tx w') = true.
Proof.
  split; [reflexivity|]. apply (commit_marks_only w_moved eq_refl).
Defined.

(** C10 on the example: the id of the branch was recorded twice. *)
Lemma rollback_duplicate_new_id_witness :
  isFinalized (tx w_branched_twice) = false ∧
  (2 ≤ length (filter (fun newId => newId = 1%Z)
                 (newTimelineIds (tx w_branched_twice))))%nat ∧
  ∃ w' events,
    rollback true w_branched_twice = (w', Return tt) ∧
    trace w' = trace w_branched_twice ++ events ∧
    (occurrences (CallOnDelete 1) events ≤ 1)%nat ∧
    (occurrences (DeleteTimeline 1) events ≤ 1)%nat ∧
    (is_Some (timelines w_branched_twice !! 1%Z) →
       occurrences (CallOnDelete 1) events = 1%nat ∧
       occurrences (DeleteTimeline 1) events = 1%nat) ∧
    (timelines w_branched_twice !! 1%Z = None →
       occurrences (CallOnDelete 1) events = 0%nat ∧
       occurrences (DeleteTimeline 1) events = 0%nat) ∧
    timelines w' !! 1%Z = None.
Proof.
  assert (2 ≤ length (filter (fun newId => newId = 1%Z)
                        (newTimelineIds (tx w_branched_twice))))%nat as Htwice.
  { apply Nat.le_refl. }
  split; [reflexivity|]. split; [exact Htwice|].
  apply (rollback_duplicate_new_id w_branched_twice true 1 eq_refl Htwice).
Defined.
End Witnesses.

Section HeapWitness.
Import Example ObjectHeap.

Lemma e4_board_8x8 : board_8x8 e4_board.
Proof. split; [reflexivity|]. repeat constructor. Defined.

(** C9 on the example: the snapshot after 1. e4, in the new format. *)
Lemma deepCloneSnapshot_fresh_copy_witness :
  read_snapshot e4_snapshot_heap e4_snapshot_ref = Some (FenBoard e4_fen e4_board) ∧
  snapshot_8x8 (FenBoard e4_fen e4_board) ∧
  ∃ snapshot' h',
    ObjectHeap.deepCloneSnapshot e4_snapshot_ref e4_snapshot_heap = Some (snapshot', h') ∧
    read_snapshot h' snapshot' = Some (FenBoard e4_fen e4_board) ∧
    preserves e4_snapshot_heap h' ∧
    allocated_between e4_snapshot_heap h' (snapshot_locs h' snapshot') ∧
    (∀ l, l ∈ snapshot_locs h' snapshot' →
          l ∉ snapshot_locs e4_snapshot_heap e4_snapshot_ref).
Proof.
  split; [reflexivity|]. split; [exact e4_board_8x8|].
  destruct (ObjectHeapFacts.deepCloneSnapshot_fresh_copy
              e4_snapshot_heap e4_snapshot_ref (FenBoard e4_fen e4_board)
              eq_refl e4_board_8x8)
    as (snapshot' & h' & Hrun & Hread & _ & Hpres & Halloc & Hfresh).
  exists snapshot', h'. repeat (split; [assumption|]). assumption.
Defined.

(** The start position in the old format: the clone is a bare board array
    again, made of 41 new objects, and reads as the same board. *)
Lemma deepCloneSnapshot_bare_example :
  read_snapshot start_snapshot_heap start_snapshot_ref = Some (BareBoard start_board) ∧
  length start_snapshot_heap = 41%nat ∧
  ∃ h',
    ObjectHeap.deepCloneSnapshot start_snapshot_ref start_snapshot_heap =
      Some (Ref 41, h') ∧
    length h' = 82%nat ∧
    read_snapshot h' (Ref 41) = Some (BareBoard start_board).
Proof.
  split; [reflexivity|]. split; [reflexivity|].
  eexists. split; [vm_compute; reflexivity|]. split; reflexivity.
Qed.
End HeapWitness.

(** ** Further properties of the transaction *)

Section RollbackFrame.
Context {C : Type} `{!ChessInstance C}.
Implicit Types (w : World C) (reg : gmap Z (TimelineData C)).

Lemma restore_all_uncaptured (entries : JsMap TimelineState) reg k :
  Map_get entries k = None → restore_all entries reg !! k = reg !! k.
Proof.
  revert reg. induction entries as [|[k' state] entries IH]; intros reg; [done|].
  cbn [Map_get restore_all]. destruct (decide (k' = k)) as [->|Hne]; [done|].
  intros Hget. rewrite IH by done. by rewrite lookup_alter_ne.
Qed.

Lemma restore_all_is_Some (entries : JsMap TimelineState) reg k :
  is_Some (restore_all entries reg !! k) ↔ is_Some (reg !! k).
Proof.
  revert reg. induction entries as [|[k' state] entries IH]; intros reg; [done|].
  cbn [restore_all]. rewrite IH. rewrite lookup_alter.
  case_decide; [subst; apply fmap_is_Some | done].
Qed.

(** What [rollback] leaves in the registry, whatever the state of the
    transaction. *)
Lemma rollback_registry cb w :
  timelines (rollback cb w).1 = timelines w ∨
  (isFinalized (tx w) = false ∧
   timelines (rollback cb w).1 =
     restore_all (capturedStates (tx w))
       (delete_all (newTimelineIds (tx w)) (timelines w))).
Proof.
  destruct (committed (tx w)) eqn:Hc.
  { left. by rewrite rollback_committed. }
  destruct (rolledBack (tx w)) eqn:Hr.
  { left. by rewrite rollback_rolledBack. }
  right. assert (isFinalized (tx w) = false) as Hfin by (by apply isFinalized_false).
  split; [done|]. by rewrite rollback_open.
Qed.

(** X1. A timeline that the transaction neither captured nor recorded as new
    is in the registry after [rollback] exactly as it was before, in whatever
    state the transaction is. *)
Theorem rollback_leaves_other_timelines w cb k :
  k ∉ newTimelineIds (tx w) →
  Map_get (capturedStates (tx w)) k = None →
  timelines (rollback cb w).1 !! k = timelines w !! k.
Proof.
  intros Hnew Hcap.
  destruct (rollback_registry cb w) as [->|[_ ->]]; [done|].
  rewrite restore_all_uncaptured by done.
  rewrite delete_all_lookup. unfold delete_entry. by rewrite decide_False.
Qed.

(** X2. [rollback] on an open transaction never adds an entry to the
    registry: the ids in it afterwards are exactly the ids that were in it
    and are not recorded as new. *)
Theorem rollback_registry_ids w cb k :
  isFinalized (tx w) = false →
  is_Some (timelines (rollback cb w).1 !! k) ↔
  is_Some (timelines w !! k) ∧ k ∉ newTimelineIds (tx w).
Proof.
  intros Hfin. rewrite rollback_open by done. cbn [fst timelines].
  rewrite restore_all_is_Some, delete_all_lookup. unfold delete_entry.
  case_decide as Hk.
  - split; [by intros [? ?] | by intros [_ ?]].
  - split; [by intros ?; split | by intros [? _]].
Qed.

(** Events of the second loop that touch the timeline [k]. *)
Lemma restore_events_absent (entries : JsMap TimelineState) reg k e :
  reg !! k = None →
  e ∈ restore_events entries reg →
  match e with
  | LoadFen k' _ _ | ErrorFenRestore k' _ | SetMoveHistory k' | SetSnapshots k' => k' ≠ k
  | _ => True
  end.
Proof.
  revert reg. induction entries as [|[k' state] entries IH]; intros reg Hk.
  - intros He. by apply elem_of_nil in He.
  - cbn [restore_events]. rewrite elem_of_app. intros [He|He].
    + unfold restore_events_of in He.
      destruct (reg !! k') as [t|] eqn:Hk'.
      * assert (k' ≠ k) as Hne by (intros ->; congruence).
        destruct (load (chess t) (st_fen state)).2; cbn in He;
          repeat (apply elem_of_cons in He as [->|He]; [done|]);
          by apply elem_of_nil in He.
      * apply list_elem_of_singleton in He as ->. done.
    + apply (IH (alter (restored state) k' reg)); [|done].
      rewrite lookup_alter. case_decide; [subst; by rewrite Hk | done].
Qed.

(** X3. A captured timeline that is not in the registry when the second loop
    reaches it (it was never there, or it is recorded as new and was just
    deleted) is skipped with a warning: nothing is loaded or written for it,
    and it is not put back into the registry. *)
Theorem rollback_skips_missing_timeline w cb k state :
  isFinalized (tx w) = false →
  Map_get (capturedStates (tx w)) k = Some state →
  timelines w !! k = None ∨ k ∈ newTimelineIds (tx w) →
  ∃ w' events,
    rollback cb w = (w', Return tt) ∧
    trace w' = trace w ++ events ∧
    WarnNotFound k ∈ events ∧
    timelines w' !! k = None ∧
    (SetMoveHistory k ∉ events) ∧
    (SetSnapshots k ∉ events) ∧
    (∀ f loaded, LoadFen k f loaded ∉ events).
Proof.
  intros Hfin Hcap Hmissing.
  set (reg := delete_all (newTimelineIds (tx w)) (timelines w)).
  assert (reg !! k = None) as Hreg.
  { unfold reg. rewrite delete_all_lookup. unfold delete_entry.
    case_decide; [done|]. by destruct Hmissing. }
  rewrite rollback_open by done. fold reg.
  eexists _, _. split; [done|]. cbn [trace timelines]. split; [done|].
  assert (∀ e, is_deletion_event e = false →
               e ∈ deletion_events cb (newTimelineIds (tx w)) (timelines w) ++
                   restore_events (capturedStates (tx w)) reg →
               e ∈ restore_events (capturedStates (tx w)) reg) as Hsecond.
  { intros e He [Hin|Hin]%elem_of_app; [|done].
    pose proof (deletion_events_Forall cb (newTimelineIds (tx w)) (timelines w)) as Hall.
    rewrite Forall_forall in Hall. apply Hall in Hin. congruence. }
  split; [|split; [|split; [|split]]].
  - apply elem_of_app. right.
    eapply restore_events_elem; [done|]. rewrite Hreg. apply list_elem_of_here.
  - by apply restore_all_absent.
  - intros Hin%Hsecond; [|done].
    by apply (restore_events_absent _ _ k _ Hreg) in Hin.
  - intros Hin%Hsecond; [|done].
    by apply (restore_events_absent _ _ k _ Hreg) in Hin.
  - intros f loaded Hin%Hsecond; [|done].
    by apply (restore_events_absent _ _ k _ Hreg) in Hin.
Qed.

Lemma deletion_events_recorded cb ids reg e :
  e ∈ deletion_events cb ids reg →
  match e with
  | CallOnDelete k => cb = true ∧ k ∈ ids ∧ is_Some (reg !! k)
  | DeleteTimeline k => k ∈ ids ∧ is_Some (reg !! k)
  | _ => False
  end.
Proof.
  revert reg. induction ids as [|newId ids IH]; intros reg.
  - intros He. by apply elem_of_nil in He.
  - cbn [deletion_events].
    assert (e ∈ deletion_events cb ids reg ∨
            e ∈ deletion_events cb ids (delete newId reg) →
            match e with
            | CallOnDelete k => cb = true ∧ k ∈ newId :: ids ∧ is_Some (reg !! k)
            | DeleteTimeline k => k ∈ newId :: ids ∧ is_Some (reg !! k)
            | _ => False
            end) as Htail.
    { intros [He|He]; apply IH in He; destruct e as [k|k| | | | | |]; try done.
      - destruct He as (? & ? & ?). repeat split; [done|by apply list_elem_of_further|done].
      - destruct He as (? & ?). split; [by apply list_elem_of_further|done].
      - destruct He as (? & ? & ?%lookup_delete_is_Some).
        repeat split; [done|by apply list_elem_of_further|tauto].
      - destruct He as (? & ?%lookup_delete_is_Some).
        split; [by apply list_elem_of_further|tauto]. }
    destruct (reg !! newId) as [t|] eqn:Hnew; [|by intros ?; apply Htail; left].
    destruct cb; cbn [app].
    + intros [->|[->|He]%elem_of_cons]%elem_of_cons.
      * repeat split; [apply list_elem_of_here | by rewrite Hnew].
      * split; [apply list_elem_of_here | by rewrite Hnew].
      * apply Htail. by right.
    + intros [->|He]%elem_of_cons.
      * split; [apply list_elem_of_here | by rewrite Hnew].
      * apply Htail. by right.
Qed.

(** X4. [rollback] calls the deletion callback, and deletes from the
    registry, only for ids that were recorded as new and were in the registry
    at the call; without a callback it makes no call at all. *)
Theorem rollback_deletes_only_recorded w cb :
  isFinalized (tx w) = false →
  ∃ w' events,
    rollback cb w = (w', Return tt) ∧
    trace w' = trace w ++ events ∧
    (∀ k, CallOnDelete k ∈ events →
          cb = true ∧ k ∈ newTimelineIds (tx w) ∧ is_Some (timelines w !! k)) ∧
    (∀ k, DeleteTimeline k ∈ events →
          k ∈ newTimelineIds (tx w) ∧ is_Some (timelines w !! k)).
Proof.
  intros Hfin. rewrite rollback_open by done.
  eexists _, _. split; [done|]. cbn [trace]. split; [done|].
  assert (∀ e, is_restore_event e = false →
               e ∈ deletion_events cb (newTimelineIds (tx w)) (timelines w) ++
                   restore_events (capturedStates (tx w))
                     (delete_all (newTimelineIds (tx w)) (timelines w)) →
               e ∈ deletion_events cb (newTimelineIds (tx w)) (timelines w)) as Hfirst.
  { intros e He [Hin|Hin]%elem_of_app; [done|].
    by apply (restore_events_no_deletion e) in Hin; [|done|apply restore_events_Forall]. }
  split; intros k Hin%Hfirst; try done;
    by apply deletion_events_recorded in Hin.
Qed.
End RollbackFrame.

Section TransactionInvariants.
Context {C : Type} `{!ChessInstance C}.
Implicit Types (w : World C) (reg : gmap Z (TimelineData C)).

Lemma cloned_snapshots_8x8 (l : list AnySnapshot) :
  deepCloneSnapshots l = l → Forall snapshot_8x8 l.
Proof.
  unfold deepCloneSnapshots. induction l as [|s l IH]; [constructor|].
  cbn [map]. intros [= Hs Hl]. constructor; [|by apply IH].
  destruct s as [b|f b]; unfold snapshot_8x8; cbn [snapshot_board];
    injection Hs as Hb; rewrite <- Hb; apply deepCloneBoard_shape.
Qed.

(** X5. In every state a transaction can reach, no timeline id is captured
    twice, every captured state is filed under the id it carries, and every
    captured snapshot is an 8x8 board, whatever the shape of the board it was
    copied from. *)
Theorem captured_states_invariant w :
  reachable w →
  NoDup (Map_keys (capturedStates (tx w))) ∧
  (∀ k state,
     Map_get (capturedStates (tx w)) k = Some state →
     st_id state = k ∧ Forall snapshot_8x8 (st_snapshots state)).
Proof.
  intros (Hnd & Hok & _)%reachable_tx_inv. split; [done|].
  intros k state Hget%Map_get_elem_of.
  rewrite Forall_forall in Hok. destruct (Hok _ Hget) as [Hid Hclone].
  split; [done|]. by apply cloned_snapshots_8x8.
Qed.

(** X6. In every state a transaction can reach it is not both committed and
    rolled back: [isFinalized()] holds exactly when one of [isCommitted()] and
    [isRolledBack()] does. *)
Theorem finalized_committed_xor_rolledBack w :
  reachable w →
  isFinalized (tx w) = xorb (isCommitted (tx w)) (isRolledBack (tx w)).
Proof.
  intros (_ & _ & Hflags)%reachable_tx_inv.
  unfold isFinalized, isCommitted, isRolledBack.
  by destruct (committed (tx w)), (rolledBack (tx w)).
Qed.

Lemma call_step_finalized w w' :
  isFinalized (tx w) = true →
  call_step w w' →
  tx w' = tx w ∧ timelines w' = timelines w.
Proof.
  intros Hfin [c ->]. destruct c as [timeline label|newId| |cb]; cbn [run].
  - by rewrite captureTimeline_finalized.
  - by rewrite captureNewTimeline_finalized.
  - by rewrite commit_finalized.
  - destruct (committed (tx w)) eqn:Hc.
    + by rewrite rollback_committed.
    + unfold isFinalized in Hfin. rewrite Hc in Hfin.
      by rewrite rollback_rolledBack.
Qed.

(** X7. Once a transaction is committed or rolled back, no sequence of method
    calls changes the transaction object or the registry any more. *)
Theorem finalized_transaction_is_inert w w' :
  isFinalized (tx w) = true →
  rtc call_step w w' →
  tx w' = tx w ∧ timelines w' = timelines w.
Proof.
  intros Hfin Hsteps. induction Hsteps as [w|w w1 w2 Hstep _ IH]; [done|].
  destruct (call_step_finalized w w1 Hfin Hstep) as [Htx Hreg].
  rewrite <- Htx, <- Hreg. apply IH. by rewrite Htx.
Qed.

(** X8. [captureTimeline], [captureNewTimeline] and [commit] only ever write
    to the transaction object: over any sequence of such calls, failing or
    not, the registry, its timelines and the trace stay as they were. *)
Theorem only_rollback_touches_registry w w' :
  rtc capture_or_commit_step w w' →
  timelines w' = timelines w ∧ trace w' = trace w.
Proof.
  induction 1 as [w|w w1 w2 (c & Hc & ->) _ [IHreg IHtr]]; [done|].
  rewrite IHreg, IHtr. clear IHreg IHtr.
  destruct c as [timeline label|newId| |cb]; cbn [run];
    [| | |by destruct (Hc cb)].
  - destruct (isFinalized (tx w)) eqn:Hfin.
    + by rewrite captureTimeline_finalized.
    + destruct (Map_has (capturedStates (tx w)) (id timeline)) eqn:Hhas.
      * by rewrite captureTimeline_again.
      * by rewrite captureTimeline_first.
  - destruct (isFinalized (tx w)) eqn:Hfin.
    + by rewrite captureNewTimeline_finalized.
    + by rewrite captureNewTimeline_open.
  - destruct (isFinalized (tx w)) eqn:Hfin.
    + by rewrite commit_finalized.
    + by rewrite commit_open.
Qed.

(** X9. [captureNewTimeline] records ids in call order and keeps duplicates:
    a run of calls on an open transaction appends the ids, as given, to the
    recorded list and changes nothing else. *)
Theorem captureNewTimeline_appends w ids :
  isFinalized (tx w) = false →
  forEach captureNewTimeline ids w =
    ({| tx := {| capturedStates := capturedStates (tx w);
                 newTimelineIds := newTimelineIds (tx w) ++ ids;
                 committed := committed (tx w);
                 rolledBack := rolledBack (tx w) |};
        timelines := timelines w; trace := trace w |}, Return tt).
Proof.
  revert w. induction ids as [|newId ids IH]; intros w Hfin.
  - cbn. unfold ret. rewrite app_nil_r. by destruct w as [[] ? ?].
  - cbn [forEach]. unfold bind. rewrite captureNewTimeline_open by done.
    rewrite IH by done. cbn. by rewrite <- app_assoc.
Qed.

Lemma restored_ids_deletion (l : list event) :
  Forall (fun e => is_deletion_event e = true) l → restored_ids l = [].
Proof.
  unfold restored_ids. induction 1 as [|e l He _ IH]; [done|].
  cbn. rewrite IH. by destruct e.
Qed.

Lemma restored_ids_restore_events (entries : JsMap TimelineState) reg :
  restored_ids (restore_events entries reg) =
    filter (fun k => is_Some (reg !! k)) (Map_keys entries).
Proof.
  unfold Map_keys. revert reg.
  induction entries as [|[k state] entries IH]; intros reg; [done|].
  cbn [restore_events fmap list_fmap fst]. unfold restored_ids in *.
  rewrite omap_app, IH, filter_cons.
  assert (filter (fun k0 => is_Some (alter (restored state) k reg !! k0)) entries.*1 =
          filter (fun k0 => is_Some (reg !! k0)) entries.*1) as ->.
  { apply list_filter_iff. intros k0. rewrite lookup_alter.
    case_decide; [subst; apply fmap_is_Some | done]. }
  unfold restore_events_of. destruct (reg !! k) as [t|] eqn:Hk.
  - rewrite decide_True by eauto.
    by destruct (load (chess t) (st_fen state)).2.
  - rewrite decide_False; [done|]. by intros [? ?].
Qed.

(** X10. [rollback] restores the captured timelines in the order of their
    first capture: the timelines it writes back are the captured ids that are
    in the registry and not recorded as new, in capture order. *)
Theorem rollback_restores_in_capture_order w cb :
  isFinalized (tx w) = false →
  ∃ w' events,
    rollback cb w = (w', Return tt) ∧
    trace w' = trace w ++ events ∧
    restored_ids events =
      filter (fun k => is_Some (timelines w !! k) ∧ k ∉ newTimelineIds (tx w))
        (Map_keys (capturedStates (tx w))).
Proof.
  intros Hfin. rewrite rollback_open by done.
  eexists _, _. split; [done|]. cbn [trace]. split; [done|].
  unfold restored_ids. rewrite omap_app. fold (restored_ids).
  change (omap _ ?l) with (restored_ids l).
  rewrite restored_ids_deletion by apply deletion_events_Forall.
  rewrite restored_ids_restore_events. cbn [app].
  apply list_filter_iff. intros k. rewrite delete_all_lookup. unfold delete_entry.
  case_decide.
  - split; [by intros [? ?] | by intros [_ ?]].
  - split; [by intros ?; split | by intros [? _]].
Qed.

Lemma restore_events_error (entries : JsMap TimelineState) reg k f :
  NoDup (Map_keys entries) →
  ErrorFenRestore k f ∈ restore_events entries reg →
  ∃ state t,
    Map_get entries k = Some state ∧ st_fen state = f ∧
    reg !! k = Some t ∧ (load (chess t) f).2 = false.
Proof.
  unfold Map_keys. revert reg.
  induction entries as [|[k' state'] entries IH]; intros reg Hnd.
  - intros He. by apply elem_of_nil in He.
  - cbn in Hnd. apply NoDup_cons in Hnd as [Hk' Hnd].
    cbn [restore_events Map_get]. rewrite elem_of_app. intros [He|He].
    + unfold restore_events_of in He. destruct (reg !! k') as [t|] eqn:Hreg.
      * destruct (load (chess t) (st_fen state')).2 eqn:Hload; cbn in He;
          rewrite !elem_of_cons in He.
        -- destruct He as [?|[?|[?|?%elem_of_nil]]]; done.
        -- destruct He as [?|[He|[?|[?|?%elem_of_nil]]]]; try done.
           injection He as -> ->. rewrite decide_True by done. by exists state', t.
      * by apply list_elem_of_singleton in He.
    + destruct (IH _ Hnd He) as (state & t & Hget & Hf & Hreg & Hload).
      assert (k' ≠ k) as Hne.
      { intros ->. apply Hk'. apply Map_get_elem_of in Hget.
        by apply (list_elem_of_fmap_2 fst) in Hget. }
      rewrite decide_False by done. rewrite lookup_alter_ne in Hreg by done.
      by exists state, t.
Qed.

(** X11. [rollback] reports a failed restoration of the positional state only
    for a captured timeline on which loading the captured string really
    failed; when every load succeeds no such error is reported. *)
Theorem rollback_reports_only_real_failures w cb :
  reachable w →
  isFinalized (tx w) = false →
  ∃ w' events,
    rollback cb w = (w', Return tt) ∧
    trace w' = trace w ++ events ∧
    (∀ k f, ErrorFenRestore k f ∈ events →
       ∃ state t,
         Map_get (capturedStates (tx w)) k = Some state ∧ st_fen state = f ∧
         timelines w !! k = Some t ∧ (k ∉ newTimelineIds (tx w)) ∧
         (load (chess t) f).2 = false).
Proof.
  intros (Hnd & _ & _)%reachable_tx_inv Hfin. rewrite rollback_open by done.
  eexists _, _. split; [done|]. cbn [trace]. split; [done|].
  intros k f [Hin|Hin]%elem_of_app.
  - pose proof (deletion_events_Forall cb (newTimelineIds (tx w)) (timelines w)) as Hall.
    rewrite Forall_forall in Hall. by apply Hall in Hin.
  - destruct (restore_events_error _ _ k f Hnd Hin) as (state & t & Hget & Hf & Hreg & Hload).
    rewrite delete_all_lookup in Hreg. unfold delete_entry in Hreg.
    case_decide; [done|]. by exists state, t.
Qed.
End TransactionInvariants.

(** ** Further properties of the clone helpers *)

Lemma clone_cell_flattens (x : option (option Piece)) :
  clone_cell x = default None x.
Proof. destruct x as [[p|]|]; [apply clone_cell_present | done..]. Qed.

Lemma lookup_map_seq {A} (f : nat → A) (n i : nat) :
  (i < n)%nat → map f (seq 0 n) !! i = Some (f i).
Proof.
  intros Hi. change (map f (seq 0 n)) with (f <$> seq 0 n).
  by rewrite list_lookup_fmap, lookup_seq_lt.
Qed.

(** X12. [deepCloneBoard] turns a board of any shape into an 8x8 board: the
    cell at row [r] and column [c] below 8 is the cell of the input there, and
    [null] where the input has no such row or column; rows and columns from 8
    on are dropped.  Cloning the clone changes nothing. *)
Theorem deepCloneBoard_normalises (b : Board) :
  board_8x8 (deepCloneBoard b) ∧
  (∀ r c, (r < 8)%nat → (c < 8)%nat →
     board_at (deepCloneBoard b) r c = Some (default None (board_at b r c))) ∧
  deepCloneBoard (deepCloneBoard b) = deepCloneBoard b.
Proof.
  split; [apply deepCloneBoard_shape|]. split; [|apply deepCloneBoard_idemp].
  intros r c Hr Hc. unfold board_at at 1, deepCloneBoard.
  rewrite lookup_map_seq by done. cbn [mbind option_bind].
  rewrite lookup_map_seq by done.
  by rewrite clone_cell_flattens.
Qed.

(** X13. On the heap, [deepCloneSnapshot] of a snapshot in either format and
    with a board of any shape returns; its result reads as the value the
    function on values computes, which has the same format and an 8x8 board;
    the objects that were there are unchanged; and every object of the result
    was allocated by the call. *)
Theorem deepCloneSnapshot_refines (h : list ObjectHeap.object)
    (snapshot : ObjectHeap.value) (s : AnySnapshot) :
  ObjectHeap.read_snapshot h snapshot = Some s →
  ∃ snapshot' h',
    ObjectHeap.deepCloneSnapshot snapshot h = Some (snapshot', h') ∧
    ObjectHeap.read_snapshot h' snapshot' = Some (deepCloneSnapshot s) ∧
    snapshot_8x8 (deepCloneSnapshot s) ∧
    ObjectHeap.preserves h h' ∧
    ObjectHeap.allocated_between h h' (ObjectHeap.snapshot_locs h' snapshot').
Proof.
  intros Hread.
  destruct (ObjectHeapFacts.deepCloneSnapshot_heap h snapshot s Hread)
    as (snapshot' & h' & Hrun & Hread' & Hpres & Halloc).
  exists snapshot', h'. split; [done|]. split; [done|]. split; [|done].
  destruct s; apply deepCloneBoard_shape.
Qed.

(** ** Square names *)

Module Board3DFacts.
Import Board3D.

Lemma digit_to_string (n : Z) :
  0 ≤ n ≤ 9 → number_to_string (Some n) = [48 + n].
Proof.
  intros Hn.
  assert (n = 0 ∨ n = 1 ∨ n = 2 ∨ n = 3 ∨ n = 4 ∨
          n = 5 ∨ n = 6 ∨ n = 7 ∨ n = 8 ∨ n = 9) as Hcases by lia.
  repeat (destruct Hcases as [->|Hcases]; [reflexivity|]). by subst.
Qed.

(** X14. From row and column to the square name and back: [_fromSq] gives
    back the row and the column that [_toSq] was given when the row is
    between -1 and 8 (so that [8 - r] is one digit) and the column between
    -97 and 65438 (so that [97 + c] is a code unit); the board uses 0 to 7. *)
Theorem fromSq_toSq (row col : Z) :
  -1 ≤ row ≤ 8 →
  -97 ≤ col ≤ 65438 →
  _fromSq (_toSq (Some row) (Some col)) = {| r := Some row; c := Some col |}.
Proof.
  intros Hrow Hcol. unfold _toSq, _fromSq, fromCharCode. cbn [num_add num_sub mbind option_bind].
  rewrite digit_to_string by lia. cbn [app].
  unfold parseInt_at, charCodeAt. cbn [lookup list_lookup].
  rewrite decide_True by lia. cbn [num_sub mbind option_bind].
  rewrite Z.mod_small by lia. f_equal; f_equal; lia.
Qed.

(** X15. Whatever the string, the row [_fromSq] reads from it is [NaN] or an
    integer between -1 and 8; so the name [_toSq] builds reads back as the row
    it was built from only for rows between -1 and 8. *)
Theorem fromSq_row_range (sq : JsString) :
  match r (_fromSq sq) with
  | Some row => -1 ≤ row ≤ 8
  | None => True
  end ∧
  (∀ row col, r (_fromSq (_toSq (Some row) col)) = Some row → -1 ≤ row ≤ 8).
Proof.
  assert (∀ sq', match r (_fromSq sq') with
                 | Some row => -1 ≤ row ≤ 8
                 | None => True
                 end) as Hrange.
  { intros sq'. unfold _fromSq, parseInt_at. cbn [r].
    destruct (sq' !! 1%nat) as [u|]; [|done].
    case_decide; [|done]. cbn. lia. }
  split; [apply Hrange|]. intros row col Hr.
  specialize (Hrange (_toSq (Some row) col)). by rewrite Hr in Hrange.
Qed.

(** X16. From the square name to row and column and back: for a string whose
    first code unit is any character and whose second is a decimal digit,
    [_toSq] of what [_fromSq] reads is these two characters; a name of two
    characters comes back unchanged. *)
Theorem toSq_fromSq (file digit : Z) (rest : JsString) :
  0 ≤ file < 65536 →
  48 ≤ digit ≤ 57 →
  _toSq (r (_fromSq (file :: digit :: rest))) (c (_fromSq (file :: digit :: rest))) =
    [file; digit].
Proof.
  intros Hfile Hdigit. unfold _fromSq, parseInt_at, charCodeAt. cbn [lookup list_lookup r c].
  rewrite decide_True by done.
  unfold _toSq, fromCharCode. cbn [num_add num_sub mbind option_bind].
  replace (97 + (file - 97)) with file by lia.
  replace (8 - (8 - (digit - 48))) with (digit - 48) by lia.
  rewrite Z.mod_small by lia. rewrite digit_to_string by lia. cbn [app].
  f_equal. f_equal. lia.
Qed.
End Board3DFacts.

(** ** Failing calls *)

Section FailingCalls.
Context {C : Type} `{!ChessInstance C}.

(** X17. When a method call throws, the transaction, the registry and the
    trace are as before the call.  [captureTimeline], [captureNewTimeline] and
    [commit] throw exactly when the transaction is finalized; [rollback]
    throws exactly when it is committed. *)
Theorem call_throws_iff (c : call) (w : World C) :
  match (run c w).2 with
  | Throw msg =>
      (run c w).1 = w ∧
      match c with
      | Rollback _ =>
          committed (tx w) = true ∧ msg = "Cannot rollback a committed transaction"
      | _ => isFinalized (tx w) = true ∧ msg = "Transaction already finalized"
      end
  | Return _ =>
      match c with
      | Rollback _ => committed (tx w) = false
      | _ => isFinalized (tx w) = false
      end
  end.
Proof.
  destruct c as [timeline label|newId| |cb]; cbn [run].
  - destruct (isFinalized (tx w)) eqn:Hfin.
    + by rewrite captureTimeline_finalized.
    + destruct (Map_has (capturedStates (tx w)) (id timeline)) eqn:Hhas.
      * by rewrite captureTimeline_again.
      * by rewrite captureTimeline_first.
  - destruct (isFinalized (tx w)) eqn:Hfin.
    + by rewrite captureNewTimeline_finalized.
    + by rewrite captureNewTimeline_open.
  - destruct (isFinalized (tx w)) eqn:Hfin.
    + by rewrite commit_finalized.
    + by rewrite commit_open.
  - destruct (committed (tx w)) eqn:Hc.
    + by rewrite rollback_committed.
    + destruct (rolledBack (tx w)) eqn:Hr.
      * by rewrite rollback_rolledBack.
      * rewrite rollback_open; [done|]. by apply isFinalized_false.
Qed.
End FailingCalls.

(** ** The further properties on the example game *)

Section MoreWitnesses.
Import Example.

Lemma w_three_reachable : reachable w_three.
Proof.
  destruct w_captured_reachable as [reg Hsteps]. exists reg.
  eapply rtc_r; [eapply rtc_r; [exact Hsteps|]|].
  - apply (step_client {[ 0%Z := main_e5; 1%Z := branch; 2%Z := side ]}).
  - apply (step_call (CaptureNewTimeline 1)).
Defined.

Lemma two_not_recorded : 2%Z ∉ newTimelineIds (tx w_three).
Proof. apply not_elem_of_cons. split; [discriminate | apply not_elem_of_nil]. Defined.

Lemma rollback_leaves_other_timelines_witness :
  (2%Z ∉ newTimelineIds (tx w_three)) ∧
  Map_get (capturedStates (tx w_three)) 2 = None ∧
  timelines (rollback true w_three).1 !! 2%Z = timelines w_three !! 2%Z.
Proof.
  split; [exact two_not_recorded|]. split; [reflexivity|].
  apply (rollback_leaves_other_timelines w_three true 2 two_not_recorded eq_refl).
Defined.

Lemma rollback_registry_ids_witness :
  isFinalized (tx w_three) = false ∧
  (is_Some (timelines (rollback true w_three).1 !! 1%Z) ↔
   is_Some (timelines w_three !! 1%Z) ∧ 1%Z ∉ newTimelineIds (tx w_three)).
Proof.
  split; [reflexivity|]. apply (rollback_registry_ids w_three true 1 eq_refl).
Defined.

Lemma rollback_skips_missing_timeline_witness :
  isFinalized (tx w_captured_and_new) = false ∧
  Map_get (capturedStates (tx w_captured_and_new)) 0 =
    Some (captured_state main_e4 "source") ∧
  (timelines w_captured_and_new !! 0%Z = None ∨
   0%Z ∈ newTimelineIds (tx w_captured_and_new)) ∧
  ∃ w' events,
    rollback true w_captured_and_new = (w', Return tt) ∧
    trace w' = trace w_captured_and_new ++ events ∧
    WarnNotFound 0 ∈ events ∧
    timelines w' !! 0%Z = None ∧
    (SetMoveHistory 0 ∉ events) ∧
    (SetSnapshots 0 ∉ events) ∧
    (∀ f loaded, LoadFen 0 f loaded ∉ events).
Proof.
  assert (timelines w_captured_and_new !! 0%Z = None ∨
          0%Z ∈ newTimelineIds (tx w_captured_and_new)) as Hmissing.
  { right. apply list_elem_of_here. }
  split; [reflexivity|]. split; [reflexivity|]. split; [exact Hmissing|].
  apply (rollback_skips_missing_timeline w_captured_and_new true 0
           (captured_state main_e4 "source") eq_refl eq_refl Hmissing).
Defined.

Lemma rollback_deletes_only_recorded_witness :
  isFinalized (tx w_three) = false ∧
  ∃ w' events,
    rollback true w_three = (w', Return tt) ∧
    trace w' = trace w_three ++ events ∧
    (∀ k, CallOnDelete k ∈ events →
          true = true ∧ k ∈ newTimelineIds (tx w_three) ∧
          is_Some (timelines w_three !! k)) ∧
    (∀ k, DeleteTimeline k ∈ events →
          k ∈ newTimelineIds (tx w_three) ∧ is_Some (timelines w_three !! k)).
Proof.
  split; [reflexivity|]. apply (rollback_deletes_only_recorded w_three true eq_refl).
Defined.

Lemma captured_states_invariant_witness :
  reachable w_three ∧
  NoDup (Map_keys (capturedStates (tx w_three))) ∧
  (∀ k state,
     Map_get (capturedStates (tx w_three)) k = Some state →
     st_id state = k ∧ Forall snapshot_8x8 (st_snapshots state)).
Proof.
  split; [exact w_three_reachable|].
  apply (captured_states_invariant w_three w_three_reachable).
Defined.

Lemma finalized_committed_xor_rolledBack_witness :
  reachable w_rolledBack ∧
  isFinalized (tx w_rolledBack) =
    xorb (isCommitted (tx w_rolledBack)) (isRolledBack (tx w_rolledBack)).
Proof.
  split; [exact w_rolledBack_reachable|].
  apply (finalized_committed_xor_rolledBack w_rolledBack w_rolledBack_reachable).
Defined.

Lemma finalized_transaction_is_inert_witness :
  isFinalized (tx w_committed) = true ∧
  rtc call_step w_committed (run (Rollback true) (run (CaptureNewTimeline 5) w_committed).1).1 ∧
  tx (run (Rollback true) (run (CaptureNewTimeline 5) w_committed).1).1 = tx w_committed ∧
  timelines (run (Rollback true) (run (CaptureNewTimeline 5) w_committed).1).1 =
    timelines w_committed.
Proof.
  assert (rtc call_step w_committed
            (run (Rollback true) (run (CaptureNewTimeline 5) w_committed).1).1) as Hsteps.
  { eapply rtc_l; [by exists (CaptureNewTimeline 5)|].
    apply rtc_once. by exists (Rollback true). }
  split; [reflexivity|]. split; [exact Hsteps|].
  apply (finalized_transaction_is_inert w_committed _ eq_refl Hsteps).
Defined.

Lemma only_rollback_touches_registry_witness :
  rtc capture_or_commit_step w_start (run Commit w_captured).1 ∧
  timelines (run Commit w_captured).1 = timelines w_start ∧
  trace (run Commit w_captured).1 = trace w_start.
Proof.
  assert (rtc capture_or_commit_step w_start (run Commit w_captured).1) as Hsteps.
  { eapply rtc_l.
    - exists (CaptureTimeline main_e4 "source"). split; [discriminate|reflexivity].
    - apply rtc_once. exists Commit. split; [discriminate|reflexivity]. }
  split; [exact Hsteps|].
  apply (only_rollback_touches_registry w_start _ Hsteps).
Defined.

Lemma captureNewTimeline_appends_witness :
  isFinalized (tx w_captured) = false ∧
  forEach captureNewTimeline [1; 1; 2]%Z w_captured =
    ({| tx := {| capturedStates := capturedStates (tx w_captured);
                 newTimelineIds := newTimelineIds (tx w_captured) ++ [1; 1; 2]%Z;
                 committed := committed (tx w_captured);
                 rolledBack := rolledBack (tx w_captured) |};
        timelines := timelines w_captured; trace := trace w_captured |}, Return tt).
Proof.
  split; [reflexivity|].
  apply (captureNewTimeline_appends w_captured [1; 1; 2]%Z eq_refl).
Defined.

Lemma rollback_restores_in_capture_order_witness :
  isFinalized (tx w_three) = false ∧
  ∃ w' events,
    rollback true w_three = (w', Return tt) ∧
    trace w' = trace w_three ++ events ∧
    restored_ids events =
      filter (fun k => is_Some (timelines w_three !! k) ∧ k ∉ newTimelineIds (tx w_three))
        (Map_keys (capturedStates (tx w_three))).
Proof.
  split; [reflexivity|].
  apply (rollback_restores_in_capture_order w_three true eq_refl).
Defined.

Lemma rollback_reports_only_real_failures_witness :
  reachable w_blank_moved ∧
  isFinalized (tx w_blank_moved) = false ∧
  ∃ w' events,
    rollback true w_blank_moved = (w', Return tt) ∧
    trace w' = trace w_blank_moved ++ events ∧
    (∀ k f, ErrorFenRestore k f ∈ events →
       ∃ state t,
         Map_get (capturedStates (tx w_blank_moved)) k = Some state ∧ st_fen state = f ∧
         timelines w_blank_moved !! k = Some t ∧
         (k ∉ newTimelineIds (tx w_blank_moved)) ∧
         (load (chess t) f).2 = false).
Proof.
  split; [exact w_blank_moved_reachable|]. split; [reflexivity|].
  apply (rollback_reports_only_real_failures w_blank_moved true
           w_blank_moved_reachable eq_refl).
Defined.

(** A board of one cell: the clone on the heap is the 8x8 board with that
    cell in its corner. *)
Lemma deepCloneSnapshot_refines_witness :
  ObjectHeap.read_snapshot ragged_snapshot_heap ragged_snapshot_ref =
    Some (BareBoard ragged_board) ∧
  ∃ snapshot' h',
    ObjectHeap.deepCloneSnapshot ragged_snapshot_ref ragged_snapshot_heap =
      Some (snapshot', h') ∧
    ObjectHeap.read_snapshot h' snapshot' = Some (deepCloneSnapshot (BareBoard ragged_board)) ∧
    snapshot_8x8 (deepCloneSnapshot (BareBoard ragged_board)) ∧
    ObjectHeap.preserves ragged_snapshot_heap h' ∧
    ObjectHeap.allocated_between ragged_snapshot_heap h'
      (ObjectHeap.snapshot_locs h' snapshot').
Proof.
  split; [reflexivity|].
  apply (deepCloneSnapshot_refines ragged_snapshot_heap ragged_snapshot_ref
           (BareBoard ragged_board) eq_refl).
Defined.

Lemma fromSq_toSq_witness :
  -1 ≤ 4 ≤ 8 ∧ -97 ≤ 4 ≤ 65438 ∧
  Board3D._fromSq (Board3D._toSq (Some 4) (Some 4)) =
    {| Board3D.r := Some 4; Board3D.c := Some 4 |} ∧
  Board3D._toSq (Some 4) (Some 4) = Board3D.square_e4.
Proof.
  assert (-1 ≤ 4 ≤ 8) as Hrow by (split; discriminate).
  assert (-97 ≤ 4 ≤ 65438) as Hcol by (split; discriminate).
  split; [exact Hrow|]. split; [exact Hcol|].
  split; [apply (Board3DFacts.fromSq_toSq 4 4 Hrow Hcol) | reflexivity].
Defined.

Lemma toSq_fromSq_witness :
  0 ≤ 101 < 65536 ∧ 48 ≤ 52 ≤ 57 ∧
  Board3D._toSq (Board3D.r (Board3D._fromSq Board3D.square_e4))
                (Board3D.c (Board3D._fromSq Board3D.square_e4)) = Board3D.square_e4.
Proof.
  assert (0 ≤ 101 < 65536) as Hfile by (split; [discriminate|reflexivity]).
  assert (48 ≤ 52 ≤ 57) as Hdigit by (split; discriminate).
  split; [exact Hfile|]. split; [exact Hdigit|].
  apply (Board3DFacts.toSq_fromSq 101 52 [] Hfile Hdigit).
Defined.
End MoreWitnesses.
